(** * FedChain consensus journal: the per-height [MessageLog]

    A shallow embedding of
    [packages/blockchain/src/blockchain/consensus/_internal/journal.py]
    together with the [Vote] and [Commit] entries of
    [packages/blockchain/src/blockchain/models.py].

    Python dictionaries are finite maps ([gmap]); a [KeyError] raised by a
    subscript [d[k]] is the [None] of the option monad; Python integers are
    [Z]; [bytes] are lists of bytes.  A [set] of [Vote] objects is kept as
    the list of its members: membership and insertion go through the
    class's own [__eq__], which compares public keys only. *)

From Stdlib Require Import ZArith Strings.Byte List Lia.
From stdpp Require Import base option list gmap fin_maps fin_sets.

Open Scope Z_scope.

(** ** Byte strings *)

#[global] Instance byte_eq_dec : EqDecision byte := Byte.byte_eq_dec.

#[global] Instance byte_countable : Countable byte :=
  inj_countable Byte.to_N Byte.of_N Byte.of_to_N.

Abbreviation bytes := (list byte).

(** ** Wire messages

    The generated module [peer_pb2] is not among the sources.  The records
    below carry the fields the journal reads, with the shapes section 6 of
    the specification gives them: a block hash on a vote may be absent
    (the nil target). *)

(** A transaction is an opaque payload; the journal only ever hashes it. *)
Definition Transaction := bytes.

Record BlockHeader := mkHeader {
  hash : bytes;
  height : Z;
  proposer : bytes;
  prev_hash : bytes
}.

Record BlockBody := mkBody { transactions : list Transaction }.

Record Block := mkBlock { header : BlockHeader; body : BlockBody }.

Record ProposeBlockRequest := mkProposal {
  prop_round : Z;
  prop_block : Block
}.

Record PrevoteMessage := mkPrevote {
  pv_height : Z;
  pv_round : Z;
  pv_pubkey : bytes;
  pv_hash : option bytes;
  pv_invalid_txs : list bytes
}.

Record PrecommitMessage := mkPrecommit {
  pc_height : Z;
  pc_round : Z;
  pc_pubkey : bytes;
  pc_hash : option bytes
}.

(** [Message = ProposeBlockRequest | PrevoteMessage | PrecommitMessage] *)
Inductive Message :=
  | Propose (p : ProposeBlockRequest)
  | Prevote (pv : PrevoteMessage)
  | Precommit (pc : PrecommitMessage).

(** ** Vote and Commit entries ([models.py]) *)

Record Vote := mkVote { vote_pubkey : bytes; vote_target : option bytes }.

Record Commit := mkCommit { commit_pubkey : bytes; commit_target : option bytes }.

(** [Vote.__eq__]: two votes are equal when their public keys are. *)
Definition Vote_eq (a b : Vote) : bool :=
  bool_decide (vote_pubkey a = vote_pubkey b).

(** [Commit.__eq__] *)
Definition Commit_eq (a b : Commit) : bool :=
  bool_decide (commit_pubkey a = commit_pubkey b).

(** ** Python sets under a class-defined equality *)

Section pyset.
Context {A : Type} (eqb : A → A → bool).

(** [x in s] *)
Definition py_in (x : A) (s : list A) : bool := existsb (eqb x) s.

(** [s.add(x)]: nothing happens when an equal member is already there. *)
Definition py_add (x : A) (s : list A) : list A :=
  if py_in x s then s else s ++ [x].
End pyset.

(** ** The journal state *)

Record MessageLog := mkLog {
  prevotes : gmap Z (list Vote);
  precommits : gmap Z (list Commit);
  proposals : gmap bytes Block;
  tx_whitelist : gmap Z (gmap bytes Z);
  tx_blacklist : gmap Z (gmap bytes Z)
}.

(** [MessageLog.__init__] *)
Definition init : MessageLog := mkLog ∅ ∅ ∅ ∅ ∅.

(** ** Queries *)

Definition count_prevotes (s : MessageLog) (round : Z) : Z :=
  Z.of_nat (length (default [] (prevotes s !! round))).

Definition count_precommits (s : MessageLog) (round : Z) : Z :=
  Z.of_nat (length (default [] (precommits s !! round))).

Definition count_prevotes_for (s : MessageLog) (round : Z) (h : option bytes) : Z :=
  Z.of_nat (length (filter (λ vote, vote_target vote = h)
                           (default [] (prevotes s !! round)))).

Definition count_precommits_for (s : MessageLog) (round : Z) (h : option bytes) : Z :=
  Z.of_nat (length (filter (λ commit, commit_target commit = h)
                           (default [] (precommits s !! round)))).

(** [proposals.get(hash, None)]; the keys of [proposals] are header hashes,
    so the nil target is never found. *)
Definition get_candidate (s : MessageLog) (h : option bytes) : option Block :=
  h ≫= λ k, proposals s !! k.

Definition has_precommit_quorum (s : MessageLog) (round : Z)
    (target : option bytes) (threshold : Z) : bool :=
  count_precommits_for s round target >=? threshold.

Definition has_prevote_quorum (s : MessageLog) (round : Z)
    (target : option bytes) (threshold : Z) : bool :=
  count_prevotes_for s round target >=? threshold.

(** The hashes of a tally row whose count reaches the threshold. *)
Definition over_threshold (threshold : Z) (row : gmap bytes Z) : list bytes :=
  map fst (filter (λ x, x.2 >= threshold) (map_to_list row)).

Definition get_invalid_txs (s : MessageLog) (round : Z) (threshold : Z) : list bytes :=
  over_threshold threshold (default ∅ (tx_blacklist s !! round)).

Definition get_valid_txs (s : MessageLog) (round : Z) (threshold : Z) : list bytes :=
  over_threshold threshold (default ∅ (tx_whitelist s !! round)).

(** ** Updates *)

(** A [for] loop whose body may raise. *)
Fixpoint for_each {A S : Type} (body : A → S → option S) (xs : list A) (s : S)
    : option S :=
  match xs with
  | [] => Some s
  | x :: xs' => s' ← body x s; for_each body xs' s'
  end.

(** [table[round][tx] = v] *)
Definition tally_set (round : Z) (tx : bytes) (v : Z)
    (table : gmap Z (gmap bytes Z)) : option (gmap Z (gmap bytes Z)) :=
  row ← table !! round;
  Some (<[round := <[tx := v]> row]> table).

(** [if tx not in table[round]: table[round][tx] = 0] *)
Definition tally_init (round : Z) (tx : bytes)
    (table : gmap Z (gmap bytes Z)) : option (gmap Z (gmap bytes Z)) :=
  row ← table !! round;
  if bool_decide (is_Some (row !! tx)) then Some table
  else tally_set round tx 0 table.

(** [table[round][tx] += 1] *)
Definition tally_incr (round : Z) (tx : bytes)
    (table : gmap Z (gmap bytes Z)) : option (gmap Z (gmap bytes Z)) :=
  row ← table !! round;
  c ← row !! tx;
  tally_set round tx (c + 1) table.

(** The body of the loop over [bad_txs]. *)
Definition blacklist_body (round : Z) (tx : bytes)
    (table : gmap Z (gmap bytes Z)) : option (gmap Z (gmap bytes Z)) :=
  table' ← tally_init round tx table;
  tally_incr round tx table'.

(** The body of the loop over [good_txs]. *)
Definition whitelist_body (round : Z) (invalid_txs : list bytes) (txid : bytes)
    (table : gmap Z (gmap bytes Z)) : option (gmap Z (gmap bytes Z)) :=
  table' ← tally_init round txid table;
  if bool_decide (txid ∉ invalid_txs) then tally_incr round txid table'
  else Some table'.

Definition add_precommit (s : MessageLog) (precommit : PrecommitMessage)
    : option (bool * MessageLog) :=
  let s1 :=
    if bool_decide (is_Some (precommits s !! pc_round precommit)) then s
    else mkLog (prevotes s) (<[pc_round precommit := []]> (precommits s))
               (proposals s) (tx_whitelist s) (tx_blacklist s) in
  let commit := mkCommit (pc_pubkey precommit) (pc_hash precommit) in
  members ← precommits s1 !! pc_round precommit;
  if py_in Commit_eq commit members then Some (false, s1)
  else
    Some (true,
          mkLog (prevotes s1)
                (<[pc_round precommit := py_add Commit_eq commit members]> (precommits s1))
                (proposals s1) (tx_whitelist s1) (tx_blacklist s1)).

(** No subscript is read here, so nothing can raise. *)
Definition add_proposal (s : MessageLog) (proposal : ProposeBlockRequest)
    : bool * MessageLog :=
  let h := hash (header (prop_block proposal)) in
  if bool_decide (is_Some (proposals s !! h)) then (false, s)
  else
    (true,
     mkLog (prevotes s) (precommits s)
           (<[hash (header (prop_block proposal)) := prop_block proposal]> (proposals s))
           (tx_whitelist s) (tx_blacklist s)).

(** [MessageLog.reset] *)
Definition reset (s : MessageLog) : MessageLog := mkLog ∅ ∅ ∅ ∅ ∅.

Section journal.
(** [blockchain.utils.get_tx_hash] is not among the sources. *)
Variable get_tx_hash : Transaction → bytes.

Definition add_prevote (s : MessageLog) (prevote : PrevoteMessage)
    : option (bool * MessageLog) :=
  let round := pv_round prevote in
  let s1 :=
    if bool_decide (is_Some (prevotes s !! round)) then s
    else mkLog (<[round := []]> (prevotes s)) (precommits s) (proposals s)
               (<[round := ∅]> (tx_whitelist s))
               (<[round := ∅]> (tx_blacklist s)) in
  let vote := mkVote (pv_pubkey prevote) (pv_hash prevote) in
  members ← prevotes s1 !! round;
  if py_in Vote_eq vote members then Some (false, s1)
  else
    let block := get_candidate s1 (pv_hash prevote) in
    let bad_txs : gset bytes := list_to_set (pv_invalid_txs prevote) in
    blacklist ← for_each (blacklist_body round) (elements bad_txs) (tx_blacklist s1);
    whitelist ←
      match block with
      | Some b =>
          let good_txs : gset bytes :=
            list_to_set (map get_tx_hash (transactions (body b))) ∖ bad_txs in
          for_each (whitelist_body round (pv_invalid_txs prevote))
                   (elements good_txs) (tx_whitelist s1)
      | None => Some (tx_whitelist s1)
      end;
    members' ← prevotes s1 !! round;
    Some (true,
          mkLog (<[round := py_add Vote_eq
                               (mkVote (pv_pubkey prevote) (pv_hash prevote))
                               members']> (prevotes s1))
                (precommits s1) (proposals s1) whitelist blacklist).

Definition add_message (s : MessageLog) (message : Message)
    : option (bool * MessageLog) :=
  match message with
  | Precommit pc => add_precommit s pc
  | Prevote pv => add_prevote s pv
  | Propose p => Some (add_proposal s p)
  end.

(** *** Call sequences

    The public mutators of the class, and the states a fresh journal
    reaches through calls that return. *)

Inductive Op :=
  | OpAddMessage (m : Message)
  | OpAddPrevote (pv : PrevoteMessage)
  | OpAddPrecommit (pc : PrecommitMessage)
  | OpAddProposal (p : ProposeBlockRequest)
  | OpReset.

Definition run_op (s : MessageLog) (op : Op) : option MessageLog :=
  match op with
  | OpAddMessage m => snd <$> add_message s m
  | OpAddPrevote pv => snd <$> add_prevote s pv
  | OpAddPrecommit pc => snd <$> add_precommit s pc
  | OpAddProposal p => Some (add_proposal s p).2
  | OpReset => Some (reset s)
  end.

Inductive reachable : MessageLog → Prop :=
  | reachable_init : reachable init
  | reachable_step s op s' :
      reachable s → run_op s op = Some s' → reachable s'.

(** Running a whole script of calls from a given state. *)
Definition run_ops (s : MessageLog) (ops : list Op) : option MessageLog :=
  for_each (λ op s, run_op s op) ops s.

End journal.

(** ** Derived notions used in the statements *)

(** The three per-round tables are opened together (invariant I3). *)
Definition rounds_aligned (s : MessageLog) : Prop :=
  dom (tx_whitelist s) = dom (prevotes s) ∧ dom (tx_blacklist s) = dom (prevotes s).

(** The row of a tally table as the readers see it: [table.get(round, {})]. *)
Definition row_of (table : gmap Z (gmap bytes Z)) (round : Z) : gmap bytes Z :=
  default ∅ (table !! round).

(** The counter of a transaction in a row, an absent counter reading 0. *)
Definition tally (row : gmap bytes Z) (tx : bytes) : Z := default 0 (row !! tx).

(** One more voice for [tx] in a row. *)
Definition bump (row : gmap bytes Z) (tx : bytes) : gmap bytes Z :=
  <[tx := tally row tx + 1]> row.

(** How many members of a vote set carry a given public key. *)
Definition votes_of (k : bytes) (members : list Vote) : nat :=
  length (filter (λ v, vote_pubkey v = k) members).

Definition commits_of (k : bytes) (members : list Commit) : nat :=
  length (filter (λ c, commit_pubkey c = k) members).

(** The transaction hashes of a block body, one per distinct hash. *)
Definition body_hashes (get_tx_hash : Transaction → bytes) (b : Block) : gset bytes :=
  list_to_set (map get_tx_hash (transactions (body b))).

(** What a prevote from a new voter leaves behind: the closed form of the
    successful path of [add_prevote], shown equal to the code on every
    journal whose tables are aligned ([add_prevote_fresh] below). *)
Definition record_prevote (get_tx_hash : Transaction → bytes)
    (s : MessageLog) (pv : PrevoteMessage) : MessageLog :=
  let round := pv_round pv in
  let bad_txs : gset bytes := list_to_set (pv_invalid_txs pv) in
  mkLog
    (<[round := default [] (prevotes s !! round) ++ [mkVote (pv_pubkey pv) (pv_hash pv)]]>
       (prevotes s))
    (precommits s)
    (proposals s)
    (<[round :=
         match get_candidate s (pv_hash pv) with
         | Some b =>
             foldl bump (row_of (tx_whitelist s) round)
                   (elements (body_hashes get_tx_hash b ∖ bad_txs))
         | None => row_of (tx_whitelist s) round
         end]> (tx_whitelist s))
    (<[round := foldl bump (row_of (tx_blacklist s) round) (elements bad_txs)]>
       (tx_blacklist s)).

(** No public key twice among the prevotes, or the precommits, of a round. *)
Definition votes_unique (s : MessageLog) : Prop :=
  ∀ round members, prevotes s !! round = Some members →
    NoDup (vote_pubkey <$> members).

Definition commits_unique (s : MessageLog) : Prop :=
  ∀ round members, precommits s !! round = Some members →
    NoDup (commit_pubkey <$> members).

(** Every counter of a table stays below the number of prevotes of its round. *)
Definition table_bounded (s : MessageLog) (table : gmap Z (gmap bytes Z)) : Prop :=
  ∀ round row tx c, table !! round = Some row → row !! tx = Some c →
    c ≤ count_prevotes s round.

Record journal_inv (s : MessageLog) : Prop := mkInv {
  inv_aligned : rounds_aligned s;
  inv_votes : votes_unique s;
  inv_commits : commits_unique s;
  inv_whitelist : table_bounded s (tx_whitelist s);
  inv_blacklist : table_bounded s (tx_blacklist s)
}.

(** ** A small journal to run the statements on *)

Module Sample.

(** A stand-in for the transaction hash: the first byte of the payload. *)
Definition tx_hash (tx : Transaction) : bytes := take 1 tx.

Definition pkA : bytes := [x41].
Definition pkB : bytes := [x42].
Definition pkC : bytes := [x43].
Definition hAA : bytes := [xaa].
Definition hBB : bytes := [xbb].

Definition tx1 : Transaction := [x01; x10].
Definition tx1' : Transaction := [x01; x11].
Definition tx2 : Transaction := [x02; x20].
Definition bad : Transaction := [x0b; xad].

(** A block whose body carries two transactions with the same hash. *)
Definition B1 : Block :=
  mkBlock (mkHeader hAA 1 pkA []) (mkBody [tx1; tx2; bad; tx1']).

(** A second block under the same header hash. *)
Definition B1' : Block :=
  mkBlock (mkHeader hAA 1 pkB []) (mkBody [tx2]).

Definition pvA : PrevoteMessage := mkPrevote 1 0 pkA (Some hAA) [[x0b]].
Definition pvA' : PrevoteMessage := mkPrevote 1 0 pkA (Some hBB) [[x01]].
Definition pvB : PrevoteMessage := mkPrevote 1 0 pkB None [[x0b]; [x0b]].
Definition pvC : PrevoteMessage := mkPrevote 1 0 pkC (Some hAA) [[x0b]].
Definition pvC1 : PrevoteMessage := mkPrevote 1 1 pkC (Some hBB) [[x02]].
Definition pcA : PrecommitMessage := mkPrecommit 1 0 pkA (Some hAA).

Definition script : list Op :=
  [OpAddProposal (mkProposal 0 B1); OpAddPrevote pvA;
   OpAddMessage (Prevote pvB); OpAddPrecommit pcA].

Definition log : MessageLog := default init (run_ops tx_hash init script).

(** A nil prevote from a third validator, with opinions on two hashes. *)
Definition pvN : PrevoteMessage := mkPrevote 1 0 pkC None [[x0b]; [x01]; [x0b]].

(** The journal after the third validator prevoted for the stored block. *)
Definition log' : MessageLog :=
  default init (run_ops tx_hash init (script ++ [OpAddPrevote pvC])).

End Sample.

(** ** Closed forms of the other successful paths *)

(** What a precommit from a new voter leaves behind. *)
Definition record_precommit (s : MessageLog) (pc : PrecommitMessage) : MessageLog :=
  mkLog (prevotes s)
        (<[pc_round pc := default [] (precommits s !! pc_round pc)
                          ++ [mkCommit (pc_pubkey pc) (pc_hash pc)]]> (precommits s))
        (proposals s) (tx_whitelist s) (tx_blacklist s).

(** What a proposal under a new header hash leaves behind. *)
Definition store_proposal (s : MessageLog) (p : ProposeBlockRequest) : MessageLog :=
  mkLog (prevotes s) (precommits s)
        (<[hash (header (prop_block p)) := prop_block p]> (proposals s))
        (tx_whitelist s) (tx_blacklist s).

(** The four ways a call of [add_message] can end on an aligned journal. *)
Inductive recorded (get_tx_hash : Transaction → bytes) (s : MessageLog)
    : bool → MessageLog → Prop :=
  | recorded_nothing : recorded get_tx_hash s false s
  | recorded_prevote pv :
      py_in Vote_eq (mkVote (pv_pubkey pv) (pv_hash pv))
            (default [] (prevotes s !! pv_round pv)) = false →
      recorded get_tx_hash s true (record_prevote get_tx_hash s pv)
  | recorded_precommit pc :
      py_in Commit_eq (mkCommit (pc_pubkey pc) (pc_hash pc))
            (default [] (precommits s !! pc_round pc)) = false →
      recorded get_tx_hash s true (record_precommit s pc)
  | recorded_proposal p :
      proposals s !! hash (header (prop_block p)) = None →
      recorded get_tx_hash s true (store_proposal s p).

(** Every round that is open holds a vote. *)
Definition rounds_inhabited (s : MessageLog) : Prop :=
  (∀ round members, prevotes s !! round = Some members → members ≠ []) ∧
  (∀ round members, precommits s !! round = Some members → members ≠ []).

(** Every counter that exists has been raised at least once. *)
Definition counters_positive (s : MessageLog) : Prop :=
  ∀ round tx c,
    (row_of (tx_whitelist s) round !! tx = Some c → 1 ≤ c) ∧
    (row_of (tx_blacklist s) round !! tx = Some c → 1 ≤ c).

(** A voter speaks for or against a transaction, never both. *)
Definition voices_bounded (s : MessageLog) : Prop :=
  ∀ round tx,
    tally (row_of (tx_whitelist s) round) tx
    + tally (row_of (tx_blacklist s) round) tx ≤ count_prevotes s round.

(** Every whitelisted hash is the hash of a transaction of a stored block. *)
Definition whitelist_grounded (get_tx_hash : Transaction → bytes)
    (s : MessageLog) : Prop :=
  ∀ round tx,
    is_Some (row_of (tx_whitelist s) round !! tx) →
    ∃ h b, proposals s !! h = Some b ∧
           tx ∈ map get_tx_hash (transactions (body b)).

(** ** Two prevotes in a row *)

(** The voices one prevote adds to a row: none, or one for each listed hash. *)
Definition voices (txs : option (list bytes)) (row : gmap bytes Z) : gmap bytes Z :=
  match txs with
  | Some xs => foldl bump row xs
  | None => row
  end.

(** The hashes a prevote speaks for, once the journal is fixed. *)
Definition good_txs_of (get_tx_hash : Transaction → bytes)
    (s : MessageLog) (pv : PrevoteMessage) : option (list bytes) :=
  b ← get_candidate s (pv_hash pv);
  Some (elements (body_hashes get_tx_hash b ∖ list_to_set (pv_invalid_txs pv))).

(** The hashes a prevote speaks against. *)
Definition bad_txs_of (pv : PrevoteMessage) : option (list bytes) :=
  Some (elements (list_to_set (pv_invalid_txs pv) : gset bytes)).

(** The state part of [add_prevote] on an aligned journal. *)
Definition after_prevote (get_tx_hash : Transaction → bytes)
    (s : MessageLog) (pv : PrevoteMessage) : MessageLog :=
  if py_in Vote_eq (mkVote (pv_pubkey pv) (pv_hash pv))
           (default [] (prevotes s !! pv_round pv))
  then s else record_prevote get_tx_hash s pv.

(** ** More sample data *)

Module Sample2.

(** A fourth validator. *)
Definition pkD : bytes := [x44].
Definition pvD : PrevoteMessage := mkPrevote 1 0 pkD (Some Sample.hAA) [[x02]; [x0b]].
Definition pcB : PrecommitMessage := mkPrecommit 1 0 Sample.pkB None.

(** The sample journal after the precommit of the second validator. *)
Definition log_pcB : MessageLog :=
  default init (run_ops Sample.tx_hash init (Sample.script ++ [OpAddPrecommit pcB])).

(** A journal put together by hand, outside the class's own methods: round
    0 has a prevote but neither tally row. *)
Definition bare : MessageLog :=
  mkLog {[ 0 := [mkVote Sample.pkA (Some Sample.hAA)] ]} ∅
        {[ Sample.hAA := Sample.B1 ]} ∅ ∅.

End Sample2.

#[global] Instance rounds_aligned_dec s : Decision (rounds_aligned s).
Proof. unfold rounds_aligned. apply _. Defined.

(** * Properties *)

(** ** Sets of votes *)

Lemma py_in_Vote v members :
  py_in Vote_eq v members = true ↔ vote_pubkey v ∈ vote_pubkey <$> members.
Proof.
  unfold py_in, Vote_eq. rewrite existsb_exists, list_elem_of_fmap.
  split.
  - intros (w & Hw & Heq). apply bool_decide_eq_true in Heq.
    exists w. split; [done | by apply list_elem_of_In].
  - intros (w & Heq & Hw). exists w.
    split; [by apply list_elem_of_In | by apply bool_decide_eq_true].
Qed.

Lemma py_in_Commit c members :
  py_in Commit_eq c members = true ↔ commit_pubkey c ∈ commit_pubkey <$> members.
Proof.
  unfold py_in, Commit_eq. rewrite existsb_exists, list_elem_of_fmap.
  split.
  - intros (w & Hw & Heq). apply bool_decide_eq_true in Heq.
    exists w. split; [done | by apply list_elem_of_In].
  - intros (w & Heq & Hw). exists w.
    split; [by apply list_elem_of_In | by apply bool_decide_eq_true].
Qed.

Lemma py_in_snoc {A} (eqb : A → A → bool) x members :
  eqb x x = true → py_in eqb x (members ++ [x]) = true.
Proof.
  intros Hrefl. unfold py_in. rewrite existsb_app. simpl.
  rewrite Hrefl. by destruct (existsb _ _).
Qed.

Lemma py_add_fresh {A} (eqb : A → A → bool) x members :
  py_in eqb x members = false → py_add eqb x members = members ++ [x].
Proof. intros Hin. unfold py_add. by rewrite Hin. Qed.

Lemma NoDup_snoc {A} (l : list A) (x : A) :
  NoDup l → x ∉ l → NoDup (l ++ [x]).
Proof.
  intros Hl Hx. apply NoDup_app. split_and!; [done | | apply NoDup_singleton].
  intros y Hy Hy'. apply list_elem_of_singleton in Hy'. by subst.
Qed.

(** A duplicate-free list holds a given key at most once. *)
Lemma NoDup_fmap_filter_length {A K} `{EqDecision K} (f : A → K) (k : K) (l : list A) :
  NoDup (f <$> l) → (length (filter (λ x, f x = k) l) ≤ 1)%nat.
Proof.
  induction l as [|a l IH]; [simpl; lia |].
  rewrite fmap_cons, NoDup_cons. intros [Ha Hl].
  rewrite filter_cons. case_decide as Hk; [| by apply IH].
  destruct (filter (λ x, f x = k) l) as [|x l'] eqn:Hf; [simpl; lia |].
  exfalso. assert (x ∈ filter (λ x, f x = k) l) as Hx by (rewrite Hf; left).
  apply list_elem_of_filter in Hx as [Hfx Hx]. apply Ha.
  rewrite Hk, <- Hfx. apply list_elem_of_fmap. eauto.
Qed.

(** ** The tally loops *)

Lemma blacklist_body_bump round tx table row :
  table !! round = Some row →
  blacklist_body round tx table = Some (<[round := bump row tx]> table).
Proof.
  intros Hrow. unfold blacklist_body, tally_init, tally_incr, tally_set, bump, tally.
  rewrite Hrow. simpl. destruct (row !! tx) as [c|] eqn:Hc; simpl.
  - rewrite Hrow. simpl. by rewrite Hc.
  - rewrite !lookup_insert_eq. simpl. rewrite lookup_insert_eq. simpl.
    by rewrite !insert_insert_eq.
Qed.

Lemma whitelist_body_bump round invalid_txs txid table row :
  table !! round = Some row →
  txid ∉ invalid_txs →
  whitelist_body round invalid_txs txid table = Some (<[round := bump row txid]> table).
Proof.
  intros Hrow Hgood.
  pose proof (blacklist_body_bump round txid table row Hrow) as Hb.
  unfold blacklist_body in Hb. unfold whitelist_body.
  destruct (tally_init round txid table) as [table'|]; simpl in *; [| done].
  by rewrite bool_decide_eq_true_2.
Qed.

Lemma for_each_blacklist round txs table row :
  table !! round = Some row →
  for_each (blacklist_body round) txs table
  = Some (<[round := foldl bump row txs]> table).
Proof.
  revert table row. induction txs as [|tx txs IH]; intros table row Hrow; simpl.
  - by rewrite insert_id.
  - rewrite (blacklist_body_bump _ _ _ _ Hrow). simpl.
    rewrite (IH _ (bump row tx)) by apply lookup_insert_eq.
    by rewrite insert_insert_eq.
Qed.

Lemma for_each_whitelist round invalid_txs txs table row :
  table !! round = Some row →
  Forall (λ tx, tx ∉ invalid_txs) txs →
  for_each (whitelist_body round invalid_txs) txs table
  = Some (<[round := foldl bump row txs]> table).
Proof.
  revert table row. induction txs as [|tx txs IH]; intros table row Hrow Hgood; simpl.
  - by rewrite insert_id.
  - apply Forall_cons in Hgood as [Htx Hgood].
    rewrite (whitelist_body_bump _ _ _ _ _ Hrow Htx). simpl.
    rewrite (IH _ (bump row tx)) by (apply lookup_insert_eq || done).
    by rewrite insert_insert_eq.
Qed.

(** A loop over an absent row raises as soon as it has something to do. *)
Lemma for_each_blacklist_absent round tx txs table :
  table !! round = None →
  for_each (blacklist_body round) (tx :: txs) table = None.
Proof.
  intros Hrow. simpl. unfold blacklist_body, tally_init. by rewrite Hrow.
Qed.

(** Counters after a loop over distinct hashes. *)
Lemma lookup_foldl_bump txs row t :
  NoDup txs →
  foldl bump row txs !! t
  = if decide (t ∈ txs) then Some (tally row t + 1) else row !! t.
Proof.
  revert row. induction txs as [|tx txs IH]; intros row Hnd; simpl.
  - destruct (decide (t ∈ [])) as [Hin|]; [by apply not_elem_of_nil in Hin | done].
  - apply NoDup_cons in Hnd as [Htx Hnd]. rewrite IH by done.
    destruct (decide (t = tx)) as [->|Hne].
    + rewrite decide_False by done. rewrite decide_True by apply list_elem_of_here.
      unfold bump. by rewrite lookup_insert_eq.
    + assert (bump row tx !! t = row !! t) as Hrow
        by (unfold bump; by rewrite lookup_insert_ne).
      unfold tally at 1. rewrite Hrow. fold (tally row t).
      destruct (decide (t ∈ txs)) as [Hin|Hnin].
      * by rewrite decide_True by (by apply list_elem_of_further).
      * rewrite decide_False; [done |].
        intros Hin. apply elem_of_cons in Hin as [?|?]; done.
Qed.

Lemma tally_foldl_bump txs row t :
  NoDup txs →
  tally (foldl bump row txs) t
  = if decide (t ∈ txs) then tally row t + 1 else tally row t.
Proof.
  intros Hnd. unfold tally at 1. rewrite lookup_foldl_bump by done.
  by case_decide.
Qed.

(** ** Recording a prevote *)

Section add_prevote_facts.
Variable get_tx_hash : Transaction → bytes.

Lemma good_txs_not_invalid (hashes : gset bytes) (invalid_txs : list bytes) :
  Forall (λ tx, tx ∉ invalid_txs) (elements (hashes ∖ list_to_set invalid_txs)).
Proof.
  apply Forall_forall. intros tx Htx.
  apply elem_of_elements, elem_of_difference in Htx as [_ Htx].
  by rewrite elem_of_list_to_set in Htx.
Qed.

Lemma add_prevote_duplicate s pv members :
  prevotes s !! pv_round pv = Some members →
  py_in Vote_eq (mkVote (pv_pubkey pv) (pv_hash pv)) members = true →
  add_prevote get_tx_hash s pv = Some (false, s).
Proof.
  intros Hm Hin. unfold add_prevote.
  rewrite bool_decide_eq_true_2 by eauto.
  rewrite Hm. simpl. by rewrite Hin.
Qed.

Lemma rounds_aligned_rows s round :
  rounds_aligned s →
  (is_Some (prevotes s !! round) ↔ is_Some (tx_whitelist s !! round)) ∧
  (is_Some (prevotes s !! round) ↔ is_Some (tx_blacklist s !! round)).
Proof.
  intros [Hw Hb]. rewrite <- !elem_of_dom, Hw, Hb. done.
Qed.

Lemma add_prevote_fresh s pv :
  rounds_aligned s →
  py_in Vote_eq (mkVote (pv_pubkey pv) (pv_hash pv))
        (default [] (prevotes s !! pv_round pv)) = false →
  add_prevote get_tx_hash s pv = Some (true, record_prevote get_tx_hash s pv).
Proof.
  intros Hal Hin.
  destruct (rounds_aligned_rows s (pv_round pv) Hal) as [Hw Hb].
  unfold add_prevote, record_prevote, row_of, body_hashes.
  destruct (prevotes s !! pv_round pv) as [members|] eqn:Hm.
  - destruct (proj1 Hw) as [wrow Hwrow]; [eauto |].
    destruct (proj1 Hb) as [brow Hbrow]; [eauto |].
    rewrite bool_decide_eq_true_2 by eauto. rewrite Hm. simpl in Hin |- *.
    rewrite Hin.
    rewrite (for_each_blacklist _ _ _ _ Hbrow). simpl.
    rewrite Hwrow, Hbrow. simpl.
    destruct (get_candidate s (pv_hash pv)) as [b|]; simpl.
    + rewrite (for_each_whitelist _ _ _ _ _ Hwrow) by apply good_txs_not_invalid.
      simpl. by rewrite py_add_fresh.
    + rewrite py_add_fresh by done. by rewrite (insert_id _ _ _ Hwrow).
  - assert (tx_whitelist s !! pv_round pv = None) as Hwrow.
    { apply eq_None_not_Some. intros H. apply Hw in H as [? ?]. done. }
    assert (tx_blacklist s !! pv_round pv = None) as Hbrow.
    { apply eq_None_not_Some. intros H. apply Hb in H as [? ?]. done. }
    rewrite bool_decide_eq_false_2 by (intros [? ?]; done).
    simpl. rewrite lookup_insert_eq. simpl.
    rewrite (for_each_blacklist _ _ _ ∅) by apply lookup_insert_eq. simpl.
    rewrite Hwrow, Hbrow. simpl.
    unfold get_candidate. simpl.
    destruct (pv_hash pv ≫= λ k, proposals s !! k) as [b|]; simpl.
    + rewrite (for_each_whitelist _ _ _ _ ∅)
        by (apply lookup_insert_eq || apply good_txs_not_invalid).
      simpl. by rewrite !insert_insert_eq.
    + by rewrite !insert_insert_eq.
Qed.

(** What a returning call did, on any journal whatever. *)
Lemma add_prevote_inv s pv b s' :
  add_prevote get_tx_hash s pv = Some (b, s') →
  let vote := mkVote (pv_pubkey pv) (pv_hash pv) in
  let members := default [] (prevotes s !! pv_round pv) in
  precommits s' = precommits s ∧ proposals s' = proposals s ∧
  if b then
    py_in Vote_eq vote members = false ∧
    prevotes s' = <[pv_round pv := members ++ [vote]]> (prevotes s)
  else
    s' = s ∧ py_in Vote_eq vote members = true.
Proof.
  unfold add_prevote.
  destruct (prevotes s !! pv_round pv) as [members|] eqn:Hm.
  - rewrite bool_decide_eq_true_2 by eauto. rewrite Hm. simpl.
    destruct (py_in Vote_eq _ members) eqn:Hin.
    + intros [= <- <-]. done.
    + destruct (for_each (blacklist_body _) _ _) as [bl|]; simpl; [| done].
      destruct (match get_candidate s (pv_hash pv) with
                | Some _ => _ | None => _ end) as [wl|]; simpl; [| done].
      intros [= <- <-]. simpl. by rewrite py_add_fresh.
  - rewrite bool_decide_eq_false_2 by (intros [? ?]; done).
    simpl. rewrite lookup_insert_eq. simpl.
    destruct (for_each (blacklist_body _) _ _) as [bl|]; simpl; [| done].
    destruct (match get_candidate _ (pv_hash pv) with
              | Some _ => _ | None => _ end) as [wl|]; simpl; [| done].
    intros [= <- <-]. simpl. by rewrite insert_insert_eq.
Qed.

End add_prevote_facts.

(** ** Recording a precommit or a proposal *)

Lemma add_precommit_spec s pc :
  let commit := mkCommit (pc_pubkey pc) (pc_hash pc) in
  let members := default [] (precommits s !! pc_round pc) in
  add_precommit s pc
  = Some (if py_in Commit_eq commit members then (false, s)
          else (true, mkLog (prevotes s)
                            (<[pc_round pc := members ++ [commit]]> (precommits s))
                            (proposals s) (tx_whitelist s) (tx_blacklist s))).
Proof.
  unfold add_precommit.
  destruct (precommits s !! pc_round pc) as [members|] eqn:Hm.
  - rewrite bool_decide_eq_true_2 by eauto. rewrite Hm. simpl.
    destruct (py_in Commit_eq _ members) eqn:Hin; [done |].
    by rewrite py_add_fresh.
  - rewrite bool_decide_eq_false_2 by (intros [? ?]; done).
    simpl. rewrite lookup_insert_eq. simpl. by rewrite insert_insert_eq.
Qed.

Lemma add_proposal_spec s p :
  let h := hash (header (prop_block p)) in
  add_proposal s p
  = match proposals s !! h with
    | Some _ => (false, s)
    | None => (true, mkLog (prevotes s) (precommits s)
                           (<[h := prop_block p]> (proposals s))
                           (tx_whitelist s) (tx_blacklist s))
    end.
Proof.
  unfold add_proposal. simpl.
  destruct (proposals s !! hash (header (prop_block p))) eqn:Hp.
  - by rewrite bool_decide_eq_true_2 by eauto.
  - by rewrite bool_decide_eq_false_2 by (intros [? ?]; done).
Qed.

(** ** The journal invariant *)

Lemma journal_inv_init : journal_inv init.
Proof.
  split.
  - split; reflexivity.
  - intros round members Hm. simpl in Hm. by rewrite lookup_empty in Hm.
  - intros round members Hm. simpl in Hm. by rewrite lookup_empty in Hm.
  - intros round row tx c Hrow. simpl in Hrow. by rewrite lookup_empty in Hrow.
  - intros round row tx c Hrow. simpl in Hrow. by rewrite lookup_empty in Hrow.
Qed.

Lemma count_prevotes_nonneg s round : 0 ≤ count_prevotes s round.
Proof. unfold count_prevotes. lia. Qed.

(** Counters of a bumped row, given a bound on the row. *)
Lemma foldl_bump_bounded txs row n t c :
  NoDup txs → 0 ≤ n →
  (∀ t' c', row !! t' = Some c' → c' ≤ n) →
  foldl bump row txs !! t = Some c → c ≤ n + 1.
Proof.
  intros Hnd Hn Hrow. rewrite lookup_foldl_bump by done.
  case_decide.
  - intros [= <-]. unfold tally.
    destruct (row !! t) as [c0|] eqn:Hc; simpl; [| lia].
    specialize (Hrow _ _ Hc). lia.
  - intros Hc. specialize (Hrow _ _ Hc). lia.
Qed.

Lemma row_of_insert_eq table round row : row_of (<[round := row]> table) round = row.
Proof. unfold row_of. by rewrite lookup_insert_eq. Qed.

Lemma row_of_insert_ne table round round' row :
  round' ≠ round → row_of (<[round := row]> table) round' = row_of table round'.
Proof. intros Hne. unfold row_of. by rewrite lookup_insert_ne. Qed.

Lemma row_of_bounded s table round t c :
  table_bounded s table → row_of table round !! t = Some c →
  c ≤ count_prevotes s round.
Proof.
  intros Hb. unfold row_of. destruct (table !! round) as [row|] eqn:Hrow; simpl.
  - by apply Hb.
  - by rewrite lookup_empty.
Qed.

Section invariant.
Variable get_tx_hash : Transaction → bytes.

Lemma count_prevotes_record s pv :
  count_prevotes (record_prevote get_tx_hash s pv) (pv_round pv)
  = count_prevotes s (pv_round pv) + 1.
Proof.
  unfold count_prevotes, record_prevote. simpl.
  rewrite lookup_insert_eq. simpl. rewrite length_app. simpl. lia.
Qed.

Lemma count_prevotes_record_ne s pv round :
  round ≠ pv_round pv →
  count_prevotes (record_prevote get_tx_hash s pv) round = count_prevotes s round.
Proof.
  intros Hne. unfold count_prevotes, record_prevote. simpl.
  by rewrite lookup_insert_ne.
Qed.

Lemma journal_inv_record s pv :
  journal_inv s →
  py_in Vote_eq (mkVote (pv_pubkey pv) (pv_hash pv))
        (default [] (prevotes s !! pv_round pv)) = false →
  journal_inv (record_prevote get_tx_hash s pv).
Proof.
  intros [[Hw Hb] Hv Hc Hwl Hbl] Hin. split.
  - unfold rounds_aligned, record_prevote. simpl.
    rewrite !dom_insert_L, Hw, Hb. done.
  - intros round members. unfold record_prevote. simpl.
    destruct (decide (round = pv_round pv)) as [->|Hne].
    + rewrite lookup_insert_eq. intros [= <-].
      rewrite fmap_app. apply NoDup_snoc.
      * destruct (prevotes s !! pv_round pv) as [ms|] eqn:Hms; simpl.
        -- by eapply Hv.
        -- apply NoDup_nil_2.
      * intros Hk. apply (py_in_Vote (mkVote (pv_pubkey pv) (pv_hash pv))) in Hk.
        congruence.
    + rewrite lookup_insert_ne by done. apply Hv.
  - exact Hc.
  - intros round row tx c.
    destruct (decide (round = pv_round pv)) as [->|Hne].
    + rewrite count_prevotes_record. unfold record_prevote at 1. simpl.
      rewrite lookup_insert_eq. intros [= <-] Hc'.
      destruct (get_candidate s (pv_hash pv)) as [b|].
      * revert Hc'. apply foldl_bump_bounded.
        -- apply NoDup_elements.
        -- apply count_prevotes_nonneg.
        -- intros t' c'. by apply row_of_bounded.
      * apply (row_of_bounded s) in Hc'; [lia | done].
    + rewrite count_prevotes_record_ne by done. unfold record_prevote. simpl.
      rewrite lookup_insert_ne by done. apply Hwl.
  - intros round row tx c.
    destruct (decide (round = pv_round pv)) as [->|Hne].
    + rewrite count_prevotes_record. unfold record_prevote at 1. simpl.
      rewrite lookup_insert_eq. intros [= <-] Hc'.
      revert Hc'. apply foldl_bump_bounded.
      * apply NoDup_elements.
      * apply count_prevotes_nonneg.
      * intros t' c'. by apply row_of_bounded.
    + rewrite count_prevotes_record_ne by done. unfold record_prevote. simpl.
      rewrite lookup_insert_ne by done. apply Hbl.
Qed.

(** On an aligned journal the call is decided by the membership test. *)
Lemma add_prevote_aligned s pv :
  rounds_aligned s →
  add_prevote get_tx_hash s pv
  = Some (if py_in Vote_eq (mkVote (pv_pubkey pv) (pv_hash pv))
                   (default [] (prevotes s !! pv_round pv))
          then (false, s) else (true, record_prevote get_tx_hash s pv)).
Proof.
  intros Hal.
  destruct (py_in Vote_eq _ (default [] (prevotes s !! pv_round pv))) eqn:Hin.
  - destruct (prevotes s !! pv_round pv) as [members|] eqn:Hm; simpl in Hin.
    + by eapply add_prevote_duplicate.
    + done.
  - by apply add_prevote_fresh.
Qed.

Lemma add_prevote_new_voter s pv :
  rounds_aligned s →
  pv_pubkey pv ∉ vote_pubkey <$> default [] (prevotes s !! pv_round pv) →
  add_prevote get_tx_hash s pv = Some (true, record_prevote get_tx_hash s pv).
Proof.
  intros Hal Hk. apply add_prevote_fresh; [done |].
  apply not_true_is_false. intros Hin.
  by apply (py_in_Vote (mkVote (pv_pubkey pv) (pv_hash pv))) in Hin.
Qed.

(** A successful call is the recording of a new voter. *)
Lemma add_prevote_true_record s pv s' :
  rounds_aligned s →
  add_prevote get_tx_hash s pv = Some (true, s') →
  s' = record_prevote get_tx_hash s pv.
Proof.
  intros Hal. rewrite add_prevote_aligned by done.
  destruct (py_in Vote_eq _ _); by intros [= <-].
Qed.

Lemma journal_inv_add_prevote s pv b s' :
  journal_inv s → add_prevote get_tx_hash s pv = Some (b, s') → journal_inv s'.
Proof.
  intros Hinv. rewrite add_prevote_aligned by apply (inv_aligned _ Hinv).
  destruct (py_in Vote_eq _ _) eqn:Hin; intros [= <- <-]; [done |].
  by apply journal_inv_record.
Qed.

Lemma journal_inv_add_precommit s pc b s' :
  journal_inv s → add_precommit s pc = Some (b, s') → journal_inv s'.
Proof.
  intros Hinv. rewrite add_precommit_spec. simpl.
  destruct (py_in Commit_eq _ _) eqn:Hin; intros [= <- <-]; [done |].
  destruct Hinv as [Hal Hv Hc Hwl Hbl]. split; try done.
  intros round members. simpl.
  destruct (decide (round = pc_round pc)) as [->|Hne].
  - rewrite lookup_insert_eq. intros [= <-].
    rewrite fmap_app. apply NoDup_snoc.
    + destruct (precommits s !! pc_round pc) as [ms|] eqn:Hms; simpl.
      * by eapply Hc.
      * apply NoDup_nil_2.
    + intros Hk. apply (py_in_Commit (mkCommit (pc_pubkey pc) (pc_hash pc))) in Hk.
      congruence.
  - rewrite lookup_insert_ne by done. apply Hc.
Qed.

Lemma journal_inv_add_proposal s p :
  journal_inv s → journal_inv (add_proposal s p).2.
Proof.
  intros Hinv. rewrite add_proposal_spec. simpl.
  destruct (proposals s !! _); [done |].
  by destruct Hinv.
Qed.

Lemma journal_inv_run_op s op s' :
  journal_inv s → run_op get_tx_hash s op = Some s' → journal_inv s'.
Proof.
  intros Hinv. destruct op as [[p|pv|pc]|pv|pc|p|]; simpl.
  - intros [= <-]. by apply journal_inv_add_proposal.
  - destruct (add_prevote _ s pv) as [[b s1]|] eqn:Hr; simpl; [| done].
    intros [= <-]. by eapply journal_inv_add_prevote.
  - destruct (add_precommit s pc) as [[b s1]|] eqn:Hr; simpl; [| done].
    intros [= <-]. by eapply journal_inv_add_precommit.
  - destruct (add_prevote _ s pv) as [[b s1]|] eqn:Hr; simpl; [| done].
    intros [= <-]. by eapply journal_inv_add_prevote.
  - destruct (add_precommit s pc) as [[b s1]|] eqn:Hr; simpl; [| done].
    intros [= <-]. by eapply journal_inv_add_precommit.
  - intros [= <-]. by apply journal_inv_add_proposal.
  - intros [= <-]. apply journal_inv_init.
Qed.

Lemma reachable_inv s : reachable get_tx_hash s → journal_inv s.
Proof.
  induction 1 as [|s op s' _ IH Hop]; [apply journal_inv_init |].
  by eapply journal_inv_run_op.
Qed.

(** No call raises on a journal that satisfies the invariant. *)
Lemma run_op_returns s op :
  rounds_aligned s → is_Some (run_op get_tx_hash s op).
Proof.
  intros Hal. destruct op as [[p|pv|pc]|pv|pc|p|]; simpl; try by eauto.
  - rewrite add_prevote_aligned by done. simpl. eauto.
  - rewrite add_precommit_spec. simpl. eauto.
  - rewrite add_prevote_aligned by done. simpl. eauto.
  - rewrite add_precommit_spec. simpl. eauto.
Qed.

Lemma add_message_returns s m :
  rounds_aligned s → is_Some (add_message get_tx_hash s m).
Proof.
  intros Hal. destruct (run_op_returns s (OpAddMessage m) Hal) as [s' Hs'].
  simpl in Hs'. destruct (add_message get_tx_hash s m); [eauto | done].
Qed.

(** From a reachable journal every script of calls runs to its end. *)
Lemma run_ops_returns ops s :
  reachable get_tx_hash s → is_Some (run_ops get_tx_hash s ops).
Proof.
  unfold run_ops. revert s. induction ops as [|op ops IH]; intros s Hs; simpl.
  - eauto.
  - destruct (run_op_returns s op) as [s1 Hop].
    { by apply inv_aligned, reachable_inv. }
    rewrite Hop. simpl. apply IH. by eapply reachable_step.
Qed.

(** A script of calls that runs to the end witnesses reachability. *)
Lemma run_ops_reachable ops s s' :
  reachable get_tx_hash s → run_ops get_tx_hash s ops = Some s' →
  reachable get_tx_hash s'.
Proof.
  unfold run_ops. revert s. induction ops as [|op ops IH]; intros s Hs; simpl.
  - by intros [= <-].
  - destruct (run_op _ s op) as [s1|] eqn:Hop; simpl; [| done].
    apply IH. by eapply reachable_step.
Qed.

End invariant.

(** ** Counting *)

Lemma filter_snoc_length {A} (P : A → Prop) `{∀ x, Decision (P x)}
    (m : gmap Z (list A)) (round round' : Z) (x : A) :
  (length (filter P (default [] (m !! round')))
   ≤ length (filter P (default []
       (<[round := default [] (m !! round) ++ [x]]> m !! round'))))%nat.
Proof.
  destruct (decide (round' = round)) as [->|Hne].
  - rewrite lookup_insert_eq. simpl. rewrite filter_app, length_app. lia.
  - by rewrite lookup_insert_ne.
Qed.

Lemma over_threshold_empty threshold : over_threshold threshold ∅ = [].
Proof. unfold over_threshold. by rewrite map_to_list_empty. Qed.

(** * The claims *)

Section claims.
Variable get_tx_hash : Transaction → bytes.

(** C1 (vote uniqueness).  In every journal reached from a fresh one by
    calls of [add_message], [add_prevote], [add_precommit], [add_proposal]
    and [reset], each round holds at most one prevote and at most one
    precommit of any given public key, whatever the targets are. *)
Theorem vote_uniqueness s :
  reachable get_tx_hash s →
  ∀ (round : Z) (k : bytes),
    (votes_of k (default [] (prevotes s !! round)) ≤ 1)%nat ∧
    (commits_of k (default [] (precommits s !! round)) ≤ 1)%nat.
Proof.
  intros Hs round k. apply reachable_inv in Hs as [_ Hv Hc _ _].
  unfold votes_of, commits_of. split.
  - destruct (prevotes s !! round) as [members|] eqn:Hm; simpl; [| lia].
    apply NoDup_fmap_filter_length. by eapply Hv.
  - destruct (precommits s !! round) as [members|] eqn:Hm; simpl; [| lia].
    apply NoDup_fmap_filter_length. by eapply Hc.
Qed.

(** C2 (duplicate prevote).  A prevote whose public key is already
    recorded at its round returns [false] and leaves the whole journal as
    it was; hence a second [add_prevote] of the same message returns
    [false] and changes nothing.  The first call returns on every journal
    whose per-round tables are aligned. *)
Theorem duplicate_prevote_noop s pv :
  (pv_pubkey pv ∈ vote_pubkey <$> default [] (prevotes s !! pv_round pv) →
   add_prevote get_tx_hash s pv = Some (false, s)) ∧
  (∀ b s1, add_prevote get_tx_hash s pv = Some (b, s1) →
           add_prevote get_tx_hash s1 pv = Some (false, s1)) ∧
  (rounds_aligned s → is_Some (add_prevote get_tx_hash s pv)).
Proof.
  assert (∀ s0, pv_pubkey pv ∈ vote_pubkey <$> default [] (prevotes s0 !! pv_round pv) →
                add_prevote get_tx_hash s0 pv = Some (false, s0)) as Hdup.
  { intros s0 Hk.
    apply (py_in_Vote (mkVote (pv_pubkey pv) (pv_hash pv))) in Hk.
    destruct (prevotes s0 !! pv_round pv) as [members|] eqn:Hm; simpl in Hk.
    - by eapply add_prevote_duplicate.
    - done. }
  split_and!.
  - apply Hdup.
  - intros b s1 Hadd. apply add_prevote_inv in Hadd as (_ & _ & Hb).
    destruct b.
    + destruct Hb as [_ Hp]. apply Hdup. rewrite Hp, lookup_insert_eq. simpl.
      rewrite fmap_app. apply elem_of_app. right. simpl. left.
    + destruct Hb as [-> Hin]. apply Hdup.
      by apply (py_in_Vote (mkVote (pv_pubkey pv) (pv_hash pv))).
  - intros Hal. rewrite add_prevote_aligned by done. eauto.
Qed.

(** C3 (whitelist tally).  When the voter is new at the round and the
    target names a stored candidate [b], the call succeeds and the round's
    whitelist row gains one voice, an absent counter starting from 0, for
    exactly the hashes of the transactions of [b] that the prevote does
    not list as invalid; every other counter of the row, and every other
    row, is as before. *)
Theorem whitelist_tally s pv b :
  rounds_aligned s →
  pv_pubkey pv ∉ vote_pubkey <$> default [] (prevotes s !! pv_round pv) →
  get_candidate s (pv_hash pv) = Some b →
  ∃ s' row',
    add_prevote get_tx_hash s pv = Some (true, s') ∧
    tx_whitelist s' = <[pv_round pv := row']> (tx_whitelist s) ∧
    ∀ tx,
      row' !! tx
      = if decide (tx ∈ map get_tx_hash (transactions (body b)) ∧
                   tx ∉ pv_invalid_txs pv)
        then Some (tally (row_of (tx_whitelist s) (pv_round pv)) tx + 1)
        else row_of (tx_whitelist s) (pv_round pv) !! tx.
Proof.
  intros Hal Hk Hb. eexists _, _. split_and!.
  - by apply add_prevote_new_voter.
  - unfold record_prevote. simpl. rewrite Hb. reflexivity.
  - intros tx. rewrite lookup_foldl_bump by apply NoDup_elements.
    unfold body_hashes.
    destruct (decide (tx ∈ elements _)) as [Hin|Hnin].
    + apply elem_of_elements, elem_of_difference in Hin as [Hin Hbad].
      rewrite elem_of_list_to_set in Hin. rewrite elem_of_list_to_set in Hbad.
      by rewrite decide_True.
    + rewrite decide_False; [done |]. intros [Hin Hbad]. apply Hnin.
      apply elem_of_elements, elem_of_difference.
      by rewrite !elem_of_list_to_set.
Qed.

(** C4 (blacklist tally).  When the voter is new at the round, the call
    succeeds and the round's blacklist row gains one voice, an absent
    counter starting from 0, for exactly the hashes the prevote lists as
    invalid.  This does not depend on the target: when the target is nil
    or names no stored candidate, the whitelist row of the round reads as
    before, and so does every other whitelist row. *)
Theorem blacklist_tally s pv :
  rounds_aligned s →
  pv_pubkey pv ∉ vote_pubkey <$> default [] (prevotes s !! pv_round pv) →
  ∃ s' row',
    add_prevote get_tx_hash s pv = Some (true, s') ∧
    tx_blacklist s' = <[pv_round pv := row']> (tx_blacklist s) ∧
    (∀ tx,
      row' !! tx
      = if decide (tx ∈ pv_invalid_txs pv)
        then Some (tally (row_of (tx_blacklist s) (pv_round pv)) tx + 1)
        else row_of (tx_blacklist s) (pv_round pv) !! tx) ∧
    (pv_hash pv = None ∨ (∃ h, pv_hash pv = Some h ∧ proposals s !! h = None) →
     tx_whitelist s'
     = (if decide (is_Some (prevotes s !! pv_round pv)) then tx_whitelist s
        else <[pv_round pv := ∅]> (tx_whitelist s)) ∧
     ∀ round threshold,
       row_of (tx_whitelist s') round = row_of (tx_whitelist s) round ∧
       get_valid_txs s' round threshold = get_valid_txs s round threshold).
Proof.
  intros Hal Hk. eexists _, _. split_and!.
  - by apply add_prevote_new_voter.
  - unfold record_prevote. simpl. reflexivity.
  - intros tx. rewrite lookup_foldl_bump by apply NoDup_elements.
    destruct (decide (tx ∈ elements _)) as [Hin|Hnin].
    + apply elem_of_elements in Hin. rewrite elem_of_list_to_set in Hin.
      by rewrite decide_True.
    + rewrite decide_False; [done |]. intros Hin. apply Hnin.
      apply elem_of_elements. by rewrite elem_of_list_to_set.
  - intros Hnone.
    assert (get_candidate s (pv_hash pv) = None) as Hb.
    { destruct Hnone as [-> | (h & -> & Hh)]; [done | exact Hh]. }
    split.
    { unfold record_prevote. simpl. rewrite Hb. unfold row_of.
      destruct (rounds_aligned_rows s (pv_round pv) Hal) as [Hw _].
      case_decide as Hm.
      - apply Hw in Hm as [row Hrow]. rewrite Hrow. simpl. by apply insert_id.
      - assert (tx_whitelist s !! pv_round pv = None) as ->; [| done].
        apply eq_None_not_Some. intros H. by apply Hw in H. }
    intros round threshold.
    assert (row_of (tx_whitelist (record_prevote get_tx_hash s pv)) round
            = row_of (tx_whitelist s) round) as Hrow.
    { unfold record_prevote. simpl. rewrite Hb.
      destruct (decide (round = pv_round pv)) as [->|Hne].
      - by rewrite row_of_insert_eq.
      - by rewrite row_of_insert_ne. }
    split; [exact Hrow |].
    unfold get_valid_txs. fold (row_of (tx_whitelist s) round).
    fold (row_of (tx_whitelist (record_prevote get_tx_hash s pv)) round).
    by rewrite Hrow.
Qed.

(** C10 (one voice per prevote).  A successful [add_prevote] raises every
    blacklist counter and every whitelist counter by one or leaves it as
    it is, an absent counter reading 0: the hashes are gathered in sets
    before the loops run, so a hash repeated in the block body or in
    [invalid_txs] counts once. *)
Theorem tally_once_per_prevote s pv s' :
  rounds_aligned s →
  add_prevote get_tx_hash s pv = Some (true, s') →
  ∀ round tx,
    (tally (row_of (tx_blacklist s) round) tx
       ≤ tally (row_of (tx_blacklist s') round) tx
       ≤ tally (row_of (tx_blacklist s) round) tx + 1) ∧
    (tally (row_of (tx_whitelist s) round) tx
       ≤ tally (row_of (tx_whitelist s') round) tx
       ≤ tally (row_of (tx_whitelist s) round) tx + 1).
Proof.
  intros Hal Hadd round tx.
  apply add_prevote_true_record in Hadd as ->; [| done].
  unfold record_prevote. simpl.
  destruct (decide (round = pv_round pv)) as [->|Hne].
  - rewrite !row_of_insert_eq. split.
    + rewrite tally_foldl_bump by apply NoDup_elements. case_decide; lia.
    + destruct (get_candidate s (pv_hash pv)); [| lia].
      rewrite tally_foldl_bump by apply NoDup_elements. case_decide; lia.
  - rewrite !row_of_insert_ne by done. lia.
Qed.

(** C5 (proposals: first writer wins, nothing else touched).  A proposal
    whose header hash is already a key of [proposals] returns [false] and
    leaves the journal as it was; otherwise it returns [true] and only
    stores the block under its hash.  Votes and tallies are never
    touched. *)
Theorem add_proposal_first_writer_wins s p :
  let h := hash (header (prop_block p)) in
  (is_Some (proposals s !! h) → add_proposal s p = (false, s)) ∧
  (proposals s !! h = None →
   add_proposal s p
   = (true, mkLog (prevotes s) (precommits s)
                  (<[h := prop_block p]> (proposals s))
                  (tx_whitelist s) (tx_blacklist s))) ∧
  prevotes (add_proposal s p).2 = prevotes s ∧
  precommits (add_proposal s p).2 = precommits s ∧
  tx_whitelist (add_proposal s p).2 = tx_whitelist s ∧
  tx_blacklist (add_proposal s p).2 = tx_blacklist s.
Proof.
  intros h. rewrite add_proposal_spec. fold h.
  destruct (proposals s !! h) as [b0|] eqn:Hp; split_and!; done.
Qed.

(** C6 (tally bound).  In every reachable journal each counter of the
    whitelist and of the blacklist of a round is at most the number of
    prevotes recorded for that round. *)
Theorem tally_bound s :
  reachable get_tx_hash s →
  ∀ (round : Z) (tx : bytes),
    (∀ c, row_of (tx_whitelist s) round !! tx = Some c → c ≤ count_prevotes s round) ∧
    (∀ c, row_of (tx_blacklist s) round !! tx = Some c → c ≤ count_prevotes s round) ∧
    tally (row_of (tx_whitelist s) round) tx ≤ count_prevotes s round ∧
    tally (row_of (tx_blacklist s) round) tx ≤ count_prevotes s round.
Proof.
  intros Hs round tx. apply reachable_inv in Hs as [_ _ _ Hwl Hbl].
  assert (∀ table, table_bounded s table →
            tally (row_of table round) tx ≤ count_prevotes s round) as Htally.
  { intros table Hb. unfold tally.
    destruct (row_of table round !! tx) as [c|] eqn:Hc; simpl.
    - by eapply row_of_bounded.
    - apply count_prevotes_nonneg. }
  split_and!; [| | by apply Htally | by apply Htally].
  - intros c. by apply row_of_bounded.
  - intros c. by apply row_of_bounded.
Qed.

(** C7 (reset completeness).  Right after [reset] every query gives its
    empty answer. *)
Theorem reset_completeness s :
  ∀ (round : Z) (h : option bytes) (threshold : Z),
    count_prevotes (reset s) round = 0 ∧
    count_precommits (reset s) round = 0 ∧
    count_prevotes_for (reset s) round h = 0 ∧
    count_precommits_for (reset s) round h = 0 ∧
    get_candidate (reset s) h = None ∧
    get_invalid_txs (reset s) round threshold = [] ∧
    get_valid_txs (reset s) round threshold = [].
Proof.
  intros round h threshold.
  unfold count_prevotes, count_precommits, count_prevotes_for,
    count_precommits_for, get_candidate, get_invalid_txs, get_valid_txs, reset.
  simpl. rewrite !lookup_empty. simpl.
  split_and!; try done.
  destruct h; simpl; [apply lookup_empty | done].
Qed.

(** C8 (quorum monotonicity).  [add_message] returns on every journal
    whose per-round tables are aligned, and a call that returns never
    lowers [count_prevotes_for] or [count_precommits_for], for any round
    and target, the nil target included; so a quorum once reached stays
    reached. *)
Theorem quorum_monotonicity s m :
  (rounds_aligned s → is_Some (add_message get_tx_hash s m)) ∧
  ∀ b s', add_message get_tx_hash s m = Some (b, s') →
    ∀ (round : Z) (h : option bytes),
      count_prevotes_for s round h ≤ count_prevotes_for s' round h ∧
      count_precommits_for s round h ≤ count_precommits_for s' round h ∧
      ∀ threshold,
        (has_prevote_quorum s round h threshold = true →
         has_prevote_quorum s' round h threshold = true) ∧
        (has_precommit_quorum s round h threshold = true →
         has_precommit_quorum s' round h threshold = true).
Proof.
  split; [apply add_message_returns |].
  intros b s' Hadd round h.
  assert (count_prevotes_for s round h ≤ count_prevotes_for s' round h ∧
          count_precommits_for s round h ≤ count_precommits_for s' round h)
    as [Hv Hc].
  { unfold count_prevotes_for, count_precommits_for.
    destruct m as [p|pv|pc]; simpl in Hadd.
    - injection Hadd as Hadd. rewrite add_proposal_spec in Hadd. simpl in Hadd.
      destruct (proposals s !! _); injection Hadd as <- <-; simpl; lia.
    - apply add_prevote_inv in Hadd as (-> & _ & Hb). destruct b.
      + destruct Hb as [_ ->]. split; [| lia].
        apply inj_le, filter_snoc_length.
      + destruct Hb as [-> _]. lia.
    - rewrite add_precommit_spec in Hadd. simpl in Hadd.
      destruct (py_in Commit_eq _ _); injection Hadd as <- <-; [lia |].
      simpl. split; [lia |]. apply inj_le, filter_snoc_length. }
  split_and!; [done | done |].
  intros threshold. unfold has_prevote_quorum, has_precommit_quorum.
  rewrite !Z.geb_le. lia.
Qed.

(** C9 (queries on unseen keys).  The readers are total, and on a key
    that was never recorded they give the empty answer: 0 for the four
    counts at a round without votes, no candidate for an unknown hash,
    and no transactions from [get_invalid_txs] and [get_valid_txs] at a
    round that has no tally row, which in a reachable journal is every
    round without prevotes. *)
Theorem queries_on_unseen_keys s :
  ∀ (round : Z) (h : option bytes) (k : bytes) (threshold : Z),
    (default [] (prevotes s !! round) = [] →
     count_prevotes s round = 0 ∧ count_prevotes_for s round h = 0) ∧
    (default [] (precommits s !! round) = [] →
     count_precommits s round = 0 ∧ count_precommits_for s round h = 0) ∧
    (proposals s !! k = None → get_candidate s (Some k) = None) ∧
    get_candidate s None = None ∧
    (tx_blacklist s !! round = None → get_invalid_txs s round threshold = []) ∧
    (tx_whitelist s !! round = None → get_valid_txs s round threshold = []) ∧
    (reachable get_tx_hash s → prevotes s !! round = None →
     get_invalid_txs s round threshold = [] ∧
     get_valid_txs s round threshold = []).
Proof.
  intros round h k threshold.
  unfold count_prevotes, count_precommits, count_prevotes_for,
    count_precommits_for, get_invalid_txs, get_valid_txs.
  split_and!.
  - by intros ->.
  - by intros ->.
  - done.
  - done.
  - intros ->. apply over_threshold_empty.
  - intros ->. apply over_threshold_empty.
  - intros Hs Hm. apply reachable_inv in Hs as [Hal _ _ _ _].
    destruct (rounds_aligned_rows s round Hal) as [Hw Hb].
    assert (tx_whitelist s !! round = None) as ->.
    { apply eq_None_not_Some. intros H. apply Hw in H as [? ?]. congruence. }
    assert (tx_blacklist s !! round = None) as ->.
    { apply eq_None_not_Some. intros H. apply Hb in H as [? ?]. congruence. }
    simpl. by rewrite over_threshold_empty.
Qed.

End claims.

(** ** The statements at the sample journal *)

Lemma sample_log_run :
  run_ops Sample.tx_hash init Sample.script = Some Sample.log.
Proof. vm_compute. reflexivity. Qed.

Lemma sample_log_reachable : reachable Sample.tx_hash Sample.log.
Proof.
  eapply run_ops_reachable; [apply reachable_init | apply sample_log_run].
Qed.

Lemma vote_uniqueness_witness :
  reachable Sample.tx_hash Sample.log ∧
  (votes_of Sample.pkA (default [] (prevotes Sample.log !! 0%Z)) ≤ 1)%nat ∧
  (commits_of Sample.pkA (default [] (precommits Sample.log !! 0%Z)) ≤ 1)%nat.
Proof.
  split; [apply sample_log_reachable |].
  apply (vote_uniqueness Sample.tx_hash Sample.log sample_log_reachable 0 Sample.pkA).
Defined.

Lemma duplicate_prevote_noop_witness :
  Sample.pkA ∈ vote_pubkey <$> default [] (prevotes Sample.log !! 0%Z) ∧
  add_prevote Sample.tx_hash Sample.log Sample.pvA' = Some (false, Sample.log).
Proof.
  assert (Sample.pkA ∈ vote_pubkey <$> default [] (prevotes Sample.log !! 0%Z)) as Hk.
  { vm_compute. left. }
  split; [exact Hk |].
  exact (proj1 (duplicate_prevote_noop Sample.tx_hash Sample.log Sample.pvA') Hk).
Defined.

Ltac by_evaluation := apply (bool_decide_unpack _); vm_compute; exact I.

Lemma sample_log_aligned : rounds_aligned Sample.log.
Proof. by_evaluation. Qed.

Lemma sample_pkC_new :
  Sample.pkC ∉ vote_pubkey <$> default [] (prevotes Sample.log !! 0).
Proof. by_evaluation. Qed.

Lemma sample_add_pvC :
  add_prevote Sample.tx_hash Sample.log Sample.pvC = Some (true, Sample.log').
Proof. vm_compute. reflexivity. Qed.

(** The hash [x01] occurs twice in the body of the stored block, and each
    of the two prevotes for that block gave it a single voice. *)
Example sample_repeated_hash :
  tally (row_of (tx_whitelist Sample.log) 0) [x01] = 1 ∧
  tally (row_of (tx_whitelist Sample.log') 0) [x01] = 2 ∧
  count_prevotes Sample.log' 0 = 3.
Proof. vm_compute. done. Qed.

Lemma whitelist_tally_witness :
  rounds_aligned Sample.log ∧
  (Sample.pkC ∉ vote_pubkey <$> default [] (prevotes Sample.log !! 0)) ∧
  get_candidate Sample.log (Some Sample.hAA) = Some Sample.B1 ∧
  ∃ s' row',
    add_prevote Sample.tx_hash Sample.log Sample.pvC = Some (true, s') ∧
    tx_whitelist s' = <[0 := row']> (tx_whitelist Sample.log) ∧
    ∀ tx,
      row' !! tx
      = if decide (tx ∈ map Sample.tx_hash (transactions (body Sample.B1)) ∧
                   tx ∉ [[x0b]])
        then Some (tally (row_of (tx_whitelist Sample.log) 0) tx + 1)
        else row_of (tx_whitelist Sample.log) 0 !! tx.
Proof.
  assert (get_candidate Sample.log (Some Sample.hAA) = Some Sample.B1) as Hb
    by (vm_compute; reflexivity).
  split_and!; [apply sample_log_aligned | apply sample_pkC_new | exact Hb |].
  exact (whitelist_tally Sample.tx_hash Sample.log Sample.pvC Sample.B1
           sample_log_aligned sample_pkC_new Hb).
Defined.

Lemma blacklist_tally_witness :
  rounds_aligned Sample.log ∧
  (Sample.pkC ∉ vote_pubkey <$> default [] (prevotes Sample.log !! 0)) ∧
  ∃ s' row',
    add_prevote Sample.tx_hash Sample.log Sample.pvN = Some (true, s') ∧
    tx_blacklist s' = <[0 := row']> (tx_blacklist Sample.log) ∧
    (∀ tx,
      row' !! tx
      = if decide (tx ∈ [[x0b]; [x01]; [x0b]])
        then Some (tally (row_of (tx_blacklist Sample.log) 0) tx + 1)
        else row_of (tx_blacklist Sample.log) 0 !! tx) ∧
    (@None bytes = None ∨ (∃ h, None = Some h ∧ proposals Sample.log !! h = None) →
     tx_whitelist s'
     = (if decide (is_Some (prevotes Sample.log !! 0)) then tx_whitelist Sample.log
        else <[0 := ∅]> (tx_whitelist Sample.log)) ∧
     ∀ round threshold,
       row_of (tx_whitelist s') round = row_of (tx_whitelist Sample.log) round ∧
       get_valid_txs s' round threshold = get_valid_txs Sample.log round threshold).
Proof.
  split_and!; [apply sample_log_aligned | apply sample_pkC_new |].
  exact (blacklist_tally Sample.tx_hash Sample.log Sample.pvN
           sample_log_aligned sample_pkC_new).
Defined.

Lemma add_proposal_first_writer_wins_witness :
  is_Some (proposals Sample.log !! Sample.hAA) ∧
  add_proposal Sample.log (mkProposal 1 Sample.B1') = (false, Sample.log) ∧
  get_candidate (add_proposal Sample.log (mkProposal 1 Sample.B1')).2
                (Some Sample.hAA) = Some Sample.B1.
Proof.
  assert (is_Some (proposals Sample.log !! Sample.hAA)) as Hk
    by (vm_compute; eauto).
  pose proof (proj1 (add_proposal_first_writer_wins Sample.log
                       (mkProposal 1 Sample.B1')) Hk) as Hadd.
  split_and!; [exact Hk | exact Hadd |].
  rewrite Hadd. vm_compute. reflexivity.
Defined.

Lemma tally_bound_witness :
  reachable Sample.tx_hash Sample.log ∧
  tally (row_of (tx_blacklist Sample.log) 0) [x0b] ≤ count_prevotes Sample.log 0.
Proof.
  split; [apply sample_log_reachable |].
  apply (tally_bound Sample.tx_hash Sample.log sample_log_reachable 0 [x0b]).
Defined.

Lemma quorum_monotonicity_witness :
  add_message Sample.tx_hash Sample.log (Prevote Sample.pvC) = Some (true, Sample.log') ∧
  count_prevotes_for Sample.log 0 (Some Sample.hAA)
  ≤ count_prevotes_for Sample.log' 0 (Some Sample.hAA).
Proof.
  split; [apply sample_add_pvC |].
  apply (proj2 (quorum_monotonicity Sample.tx_hash Sample.log (Prevote Sample.pvC))
           true Sample.log' sample_add_pvC 0 (Some Sample.hAA)).
Defined.

Lemma queries_on_unseen_keys_witness :
  prevotes Sample.log !! 7 = None ∧
  get_invalid_txs Sample.log 7 0 = [] ∧ get_valid_txs Sample.log 7 0 = [].
Proof.
  assert (prevotes Sample.log !! 7 = None) as Hm by (vm_compute; reflexivity).
  split; [exact Hm |].
  destruct (queries_on_unseen_keys Sample.tx_hash Sample.log 7 None [] 0)
    as (_ & _ & _ & _ & _ & _ & Hq).
  exact (Hq sample_log_reachable Hm).
Defined.

Lemma tally_once_per_prevote_witness :
  rounds_aligned Sample.log ∧
  add_prevote Sample.tx_hash Sample.log Sample.pvC = Some (true, Sample.log') ∧
  tally (row_of (tx_whitelist Sample.log) 0) [x01]
    ≤ tally (row_of (tx_whitelist Sample.log') 0) [x01]
    ≤ tally (row_of (tx_whitelist Sample.log) 0) [x01] + 1.
Proof.
  split; [apply sample_log_aligned | split; [apply sample_add_pvC |]].
  apply (tally_once_per_prevote Sample.tx_hash Sample.log Sample.pvC Sample.log'
           sample_log_aligned sample_add_pvC 0 [x01]).
Defined.

(** * Further properties of the journal *)

Section steps.
Variable get_tx_hash : Transaction → bytes.

Lemma add_message_recorded s m b s' :
  rounds_aligned s →
  add_message get_tx_hash s m = Some (b, s') →
  recorded get_tx_hash s b s'.
Proof.
  intros Hal. destruct m as [p|pv|pc]; simpl.
  - rewrite add_proposal_spec. simpl.
    destruct (proposals s !! _) eqn:Hp; intros [= <- <-]; by constructor.
  - rewrite add_prevote_aligned by done.
    destruct (py_in Vote_eq _ _) eqn:Hin; intros [= <- <-]; by constructor.
  - rewrite add_precommit_spec. simpl.
    destruct (py_in Commit_eq _ _) eqn:Hin; intros [= <- <-]; by constructor.
Qed.

Lemma run_op_recorded s op s' :
  rounds_aligned s →
  run_op get_tx_hash s op = Some s' →
  s' = init ∨ ∃ b, recorded get_tx_hash s b s'.
Proof.
  intros Hal.
  assert (∀ m, snd <$> add_message get_tx_hash s m = Some s' →
               ∃ b, recorded get_tx_hash s b s') as Hm.
  { intros m. destruct (add_message _ s m) as [[b s1]|] eqn:Hadd; simpl; [| done].
    intros [= <-]. exists b. by apply add_message_recorded with m. }
  destruct op as [m|pv|pc|p|]; simpl.
  - intros H. right. by apply (Hm m).
  - intros H. right. by apply (Hm (Prevote pv)).
  - intros H. right. by apply (Hm (Precommit pc)).
  - intros H. right. apply (Hm (Propose p)). simpl. by rewrite <- H.
  - intros [= <-]. by left.
Qed.

(** Induction over the reachable journals, one case per kind of record. *)
Lemma reachable_recorded_ind (P : MessageLog → Prop) :
  P init →
  (∀ s b s', journal_inv s → P s → recorded get_tx_hash s b s' → P s') →
  ∀ s, reachable get_tx_hash s → P s.
Proof.
  intros Hinit Hstep s. induction 1 as [|s op s' Hs IH Hop]; [done |].
  pose proof (reachable_inv _ _ Hs) as Hinv.
  destruct (run_op_recorded s op s' (inv_aligned _ Hinv) Hop) as [-> | [b Hrec]].
  - done.
  - by eapply Hstep.
Qed.

End steps.

(** ** Precommits, and what a recorded vote adds to the counts *)

Lemma filter_snoc_count {A} (P : A → Prop) `{∀ x, Decision (P x)}
    (m : gmap Z (list A)) (round round' : Z) (x : A) :
  length (filter P (default []
    (<[round := default [] (m !! round) ++ [x]]> m !! round')))
  = (length (filter P (default [] (m !! round')))
     + if decide (round' = round ∧ P x) then 1 else 0)%nat.
Proof.
  destruct (decide (round' = round)) as [->|Hne].
  - rewrite lookup_insert_eq. simpl. rewrite filter_app, length_app.
    rewrite filter_cons, filter_nil.
    destruct (decide (P x)) as [Hx|Hx].
    + by rewrite decide_True.
    + by rewrite decide_False by tauto.
  - rewrite lookup_insert_ne by done. rewrite decide_False by tauto. lia.
Qed.

Lemma length_snoc_count {A} (m : gmap Z (list A)) (round round' : Z) (x : A) :
  length (default [] (<[round := default [] (m !! round) ++ [x]]> m !! round'))
  = (length (default [] (m !! round')) + if decide (round' = round) then 1 else 0)%nat.
Proof.
  destruct (decide (round' = round)) as [->|Hne].
  - rewrite lookup_insert_eq. simpl. by rewrite length_app.
  - rewrite lookup_insert_ne by done. lia.
Qed.

(** X1.  [add_precommit] returns on every journal whatever, changes nothing
    but [precommits], returns [false] exactly when the public key is
    already recorded at the round, in which case the journal is left as it
    was, and rejects an immediate repeat of the same message. *)
Theorem add_precommit_total_frame s pc :
  ∃ b s',
    add_precommit s pc = Some (b, s') ∧
    prevotes s' = prevotes s ∧ proposals s' = proposals s ∧
    tx_whitelist s' = tx_whitelist s ∧ tx_blacklist s' = tx_blacklist s ∧
    (b = false ↔
     pc_pubkey pc ∈ commit_pubkey <$> default [] (precommits s !! pc_round pc)) ∧
    (b = false → s' = s) ∧
    add_precommit s' pc = Some (false, s').
Proof.
  pose (commit := mkCommit (pc_pubkey pc) (pc_hash pc)).
  rewrite add_precommit_spec. simpl. fold commit.
  destruct (py_in Commit_eq commit (default [] (precommits s !! pc_round pc)))
    eqn:Hin.
  - eexists false, s. split_and!; try done.
    + split; [| done]. intros _. by apply (py_in_Commit commit).
    + rewrite add_precommit_spec. simpl. fold commit. by rewrite Hin.
  - eexists true, _. split_and!; try done.
    + split; [done |]. intros Hk. apply (py_in_Commit commit) in Hk. congruence.
    + rewrite add_precommit_spec. simpl. fold commit.
      rewrite lookup_insert_eq. simpl.
      by rewrite py_in_snoc by (by apply bool_decide_eq_true).
Qed.

(** X2.  A precommit that is recorded adds exactly one to
    [count_precommits] of its round and to [count_precommits_for] of its
    round and target; every other count of precommits is as before. *)
Theorem add_precommit_counts s pc s' :
  add_precommit s pc = Some (true, s') →
  ∀ (round : Z) (h : option bytes),
    count_precommits s' round
    = count_precommits s round + (if decide (round = pc_round pc) then 1 else 0) ∧
    count_precommits_for s' round h
    = count_precommits_for s round h
      + (if decide (round = pc_round pc ∧ pc_hash pc = h) then 1 else 0).
Proof.
  rewrite add_precommit_spec. simpl.
  destruct (py_in Commit_eq _ _); intros [= <-] round h.
  unfold count_precommits, count_precommits_for. simpl. split.
  - rewrite length_snoc_count. case_decide; lia.
  - rewrite filter_snoc_count. simpl. case_decide; lia.
Qed.

Section prevote_counts.
Variable get_tx_hash : Transaction → bytes.

(** X3.  A prevote that is recorded adds exactly one to [count_prevotes] of
    its round and to [count_prevotes_for] of its round and target (the nil
    target included); every other count of prevotes, and every count of
    precommits, is as before.  This holds on any journal on which the call
    returns. *)
Theorem add_prevote_counts s pv s' :
  add_prevote get_tx_hash s pv = Some (true, s') →
  ∀ (round : Z) (h : option bytes),
    count_prevotes s' round
    = count_prevotes s round + (if decide (round = pv_round pv) then 1 else 0) ∧
    count_prevotes_for s' round h
    = count_prevotes_for s round h
      + (if decide (round = pv_round pv ∧ pv_hash pv = h) then 1 else 0) ∧
    count_precommits s' round = count_precommits s round ∧
    count_precommits_for s' round h = count_precommits_for s round h.
Proof.
  intros Hadd round h. apply add_prevote_inv in Hadd as (Hc & _ & _ & Hv).
  unfold count_prevotes, count_prevotes_for, count_precommits, count_precommits_for.
  rewrite Hc, Hv. split_and!; try done.
  - rewrite length_snoc_count. case_decide; lia.
  - rewrite filter_snoc_count. simpl. case_decide; lia.
Qed.

End prevote_counts.

(** ** Reading the tallies *)

Lemma elem_of_over_threshold threshold row tx :
  tx ∈ over_threshold threshold row ↔ ∃ c, row !! tx = Some c ∧ c >= threshold.
Proof.
  unfold over_threshold. rewrite list_elem_of_In, in_map_iff. split.
  - intros ([t c] & <- & Hin). apply list_elem_of_In, list_elem_of_filter in Hin.
    destruct Hin as [Hc Hin]. apply elem_of_map_to_list in Hin. eauto.
  - intros (c & Hrow & Hc). exists (tx, c). split; [done |].
    apply list_elem_of_In, list_elem_of_filter. split; [done |].
    by apply elem_of_map_to_list.
Qed.

Lemma NoDup_over_threshold threshold row : NoDup (over_threshold threshold row).
Proof.
  unfold over_threshold.
  replace (map fst (filter (λ x, x.2 >= threshold) (map_to_list row)))
    with ((filter (λ x : bytes * Z, x.2 >= threshold) (map_to_list row)).*1).
  - apply NoDup_fmap_fst.
    + intros t c1 c2 H1 H2.
      apply list_elem_of_filter in H1 as [_ H1]. apply list_elem_of_filter in H2 as [_ H2].
      apply elem_of_map_to_list in H1. apply elem_of_map_to_list in H2. congruence.
    + apply NoDup_filter, NoDup_map_to_list.
  - generalize (filter (λ x : bytes * Z, x.2 >= threshold) (map_to_list row)).
    intros l. induction l as [|x l IH]; [done |]. simpl. by rewrite <- IH.
Qed.

(** X4.  [get_invalid_txs] and [get_valid_txs] list, each hash once, exactly
    the hashes whose counter in the row of the round is at least the
    threshold; so a higher threshold never lists a hash that a lower one
    leaves out. *)
Theorem threshold_readers_spec s round threshold :
  (∀ tx, tx ∈ get_invalid_txs s round threshold ↔
         ∃ c, row_of (tx_blacklist s) round !! tx = Some c ∧ threshold ≤ c) ∧
  (∀ tx, tx ∈ get_valid_txs s round threshold ↔
         ∃ c, row_of (tx_whitelist s) round !! tx = Some c ∧ threshold ≤ c) ∧
  NoDup (get_invalid_txs s round threshold) ∧
  NoDup (get_valid_txs s round threshold) ∧
  (∀ threshold' tx, threshold ≤ threshold' →
     (tx ∈ get_invalid_txs s round threshold' → tx ∈ get_invalid_txs s round threshold) ∧
     (tx ∈ get_valid_txs s round threshold' → tx ∈ get_valid_txs s round threshold)).
Proof.
  unfold get_invalid_txs, get_valid_txs.
  fold (row_of (tx_blacklist s) round). fold (row_of (tx_whitelist s) round).
  split_and!.
  - intros tx. rewrite elem_of_over_threshold.
    split; intros (c & ? & ?); exists c; split; (done || lia).
  - intros tx. rewrite elem_of_over_threshold.
    split; intros (c & ? & ?); exists c; split; (done || lia).
  - apply NoDup_over_threshold.
  - apply NoDup_over_threshold.
  - intros threshold' tx Hle. rewrite !elem_of_over_threshold.
    split; intros (c & ? & ?); exists c; split; (done || lia).
Qed.

(** ** More invariants of the reachable journals *)

Lemma foldl_bump_positive txs row t c :
  NoDup txs →
  (∀ t' c', row !! t' = Some c' → 1 ≤ c') →
  foldl bump row txs !! t = Some c → 1 ≤ c.
Proof.
  intros Hnd Hrow. rewrite lookup_foldl_bump by done. case_decide.
  - intros [= <-]. unfold tally.
    destruct (row !! t) as [c0|] eqn:Hc; simpl; [| lia].
    specialize (Hrow _ _ Hc). lia.
  - apply Hrow.
Qed.

Lemma count_prevotes_record_any get_tx_hash s pv round :
  count_prevotes (record_prevote get_tx_hash s pv) round
  = count_prevotes s round + (if decide (round = pv_round pv) then 1 else 0).
Proof.
  case_decide as Hr.
  - subst. apply count_prevotes_record.
  - rewrite count_prevotes_record_ne by done. lia.
Qed.

Section more_invariants.
Variable get_tx_hash : Transaction → bytes.

Lemma reachable_rounds_inhabited s :
  reachable get_tx_hash s → rounds_inhabited s.
Proof.
  revert s. apply reachable_recorded_ind.
  - split; intros round members Hm; simpl in Hm; by rewrite lookup_empty in Hm.
  - intros s b s' _ [Hv Hc] Hrec. destruct Hrec as [|pv _|pc _|p _]; [done | | |].
    + split; [| exact Hc]. intros round members. unfold record_prevote. simpl.
      destruct (decide (round = pv_round pv)) as [->|Hne].
      * rewrite lookup_insert_eq. intros [= <-] Heq. apply (f_equal length) in Heq.
        rewrite length_app in Heq. simpl in Heq. lia.
      * rewrite lookup_insert_ne by done. apply Hv.
    + split; [exact Hv |]. intros round members. unfold record_precommit. simpl.
      destruct (decide (round = pc_round pc)) as [->|Hne].
      * rewrite lookup_insert_eq. intros [= <-] Heq. apply (f_equal length) in Heq.
        rewrite length_app in Heq. simpl in Heq. lia.
      * rewrite lookup_insert_ne by done. apply Hc.
    + done.
Qed.

Lemma reachable_counters_positive s :
  reachable get_tx_hash s → counters_positive s.
Proof.
  revert s. apply reachable_recorded_ind.
  - intros round tx c. unfold row_of. simpl. rewrite !lookup_empty. simpl.
    by rewrite lookup_empty.
  - intros s b s' _ IH Hrec. destruct Hrec as [|pv _|pc _|p _]; [done | | done | done].
    intros round tx c. unfold record_prevote. simpl.
    destruct (decide (round = pv_round pv)) as [->|Hne].
    + rewrite !row_of_insert_eq. split.
      * destruct (get_candidate s (pv_hash pv)); [| apply IH].
        apply foldl_bump_positive; [apply NoDup_elements |].
        intros t' c'. apply IH.
      * apply foldl_bump_positive; [apply NoDup_elements |].
        intros t' c'. apply IH.
    + rewrite !row_of_insert_ne by done. apply IH.
Qed.

Lemma reachable_voices_bounded s :
  reachable get_tx_hash s → voices_bounded s.
Proof.
  revert s. apply reachable_recorded_ind.
  - intros round tx. vm_compute. done.
  - intros s b s' _ IH Hrec. destruct Hrec as [|pv _|pc _|p _]; [done | | done | done].
    intros round tx. rewrite count_prevotes_record_any.
    specialize (IH round tx). unfold record_prevote. simpl.
    destruct (decide (round = pv_round pv)) as [->|Hne].
    + rewrite !row_of_insert_eq.
      rewrite (tally_foldl_bump (elements (list_to_set (pv_invalid_txs pv))))
        by apply NoDup_elements.
      destruct (get_candidate s (pv_hash pv)) as [blk|].
      * rewrite tally_foldl_bump by apply NoDup_elements.
        destruct (decide (tx ∈ elements (body_hashes get_tx_hash blk ∖ _)))
          as [Hgood|_]; destruct (decide (tx ∈ elements _)) as [Hbad|_]; try lia.
        apply elem_of_elements, elem_of_difference in Hgood as [_ Hgood].
        by apply elem_of_elements in Hbad.
      * case_decide; lia.
    + rewrite !row_of_insert_ne by done. lia.
Qed.

Lemma reachable_whitelist_grounded s :
  reachable get_tx_hash s → whitelist_grounded get_tx_hash s.
Proof.
  revert s. apply reachable_recorded_ind.
  - intros round tx [c Hc]. unfold row_of in Hc. simpl in Hc.
    rewrite lookup_empty in Hc. simpl in Hc. by rewrite lookup_empty in Hc.
  - intros s b s' _ IH Hrec. destruct Hrec as [|pv _|pc _|p Hp]; [done | | done |].
    + intros round tx. unfold record_prevote. simpl.
      destruct (decide (round = pv_round pv)) as [->|Hne].
      * rewrite row_of_insert_eq.
        destruct (get_candidate s (pv_hash pv)) as [blk|] eqn:Hblk; [| apply IH].
        rewrite lookup_foldl_bump by apply NoDup_elements.
        destruct (decide (tx ∈ elements _)) as [Hgood|_]; [| apply IH].
        intros _. apply elem_of_elements, elem_of_difference in Hgood as [Hgood _].
        unfold body_hashes in Hgood. rewrite elem_of_list_to_set in Hgood.
        unfold get_candidate in Hblk.
        destruct (pv_hash pv) as [h|]; simpl in Hblk; [| done]. eauto.
      * rewrite row_of_insert_ne by done. apply IH.
    + intros round tx Htx. destruct (IH round tx Htx) as (h & blk & Hh & Hin).
      exists h, blk. split; [| done]. unfold store_proposal. simpl.
      rewrite lookup_insert_ne; [done |]. intros <-. congruence.
Qed.

End more_invariants.

Section reachable_facts.
Variable get_tx_hash : Transaction → bytes.

(** X5.  In every reachable journal the per-round tables are opened
    together and never left empty of votes: a round has a whitelist row
    exactly when it has a blacklist row, exactly when [count_prevotes] of
    the round is positive; likewise a round is a key of [precommits]
    exactly when [count_precommits] of it is positive. *)
Theorem rounds_opened_together s :
  reachable get_tx_hash s →
  ∀ round : Z,
    (is_Some (tx_whitelist s !! round) ↔ 0 < count_prevotes s round) ∧
    (is_Some (tx_blacklist s !! round) ↔ 0 < count_prevotes s round) ∧
    (is_Some (prevotes s !! round) ↔ 0 < count_prevotes s round) ∧
    (is_Some (precommits s !! round) ↔ 0 < count_precommits s round).
Proof.
  intros Hs round.
  destruct (reachable_rounds_inhabited _ _ Hs) as [Hv Hc].
  pose proof (inv_aligned _ (reachable_inv _ _ Hs)) as Hal.
  destruct (rounds_aligned_rows s round Hal) as [Hw Hb].
  assert (is_Some (prevotes s !! round) ↔ 0 < count_prevotes s round) as Hpv.
  { unfold count_prevotes. destruct (prevotes s !! round) as [ms|] eqn:Hm; simpl.
    - split; [| eauto]. intros _. specialize (Hv _ _ Hm). destruct ms; simpl; [done | lia].
    - split; [by intros [? ?] | lia]. }
  split_and!; [by rewrite <- Hw | by rewrite <- Hb | done |].
  unfold count_precommits. destruct (precommits s !! round) as [ms|] eqn:Hm; simpl.
  - split; [| eauto]. intros _. specialize (Hc _ _ Hm). destruct ms; simpl; [done | lia].
  - split; [by intros [? ?] | lia].
Qed.

(** X6.  In every reachable journal a counter that exists is at least 1:
    neither loop of [add_prevote] ever leaves a counter at the 0 it was
    initialised with.  So with a threshold of 1 or less [get_invalid_txs]
    and [get_valid_txs] list every hash that has a counter. *)
Theorem counters_at_least_one s :
  reachable get_tx_hash s →
  ∀ (round : Z) (tx : bytes),
    (∀ c, row_of (tx_whitelist s) round !! tx = Some c → 1 ≤ c) ∧
    (∀ c, row_of (tx_blacklist s) round !! tx = Some c → 1 ≤ c) ∧
    (∀ threshold, threshold ≤ 1 →
       (tx ∈ get_valid_txs s round threshold
        ↔ is_Some (row_of (tx_whitelist s) round !! tx)) ∧
       (tx ∈ get_invalid_txs s round threshold
        ↔ is_Some (row_of (tx_blacklist s) round !! tx))).
Proof.
  intros Hs round tx. pose proof (reachable_counters_positive _ _ Hs) as Hpos.
  split_and!.
  - intros c. apply Hpos.
  - intros c. apply Hpos.
  - intros threshold Hth. unfold get_valid_txs, get_invalid_txs.
    fold (row_of (tx_blacklist s) round). fold (row_of (tx_whitelist s) round).
    rewrite !elem_of_over_threshold. split.
    + split; [intros (c & ? & ?); eauto |]. intros [c Hc]. exists c. split; [done |].
      apply Hpos in Hc. lia.
    + split; [intros (c & ? & ?); eauto |]. intros [c Hc]. exists c. split; [done |].
      apply Hpos in Hc. lia.
Qed.

(** X7.  In every reachable journal the whitelist counter and the blacklist
    counter of a transaction together never exceed the number of prevotes
    of the round: one prevote speaks for a hash or against it, never both.
    Hence, at a threshold above half the prevotes of the round, no hash is
    listed by both [get_valid_txs] and [get_invalid_txs]. *)
Theorem valid_and_invalid_exclusive s :
  reachable get_tx_hash s →
  ∀ (round : Z) (tx : bytes),
    tally (row_of (tx_whitelist s) round) tx
    + tally (row_of (tx_blacklist s) round) tx ≤ count_prevotes s round ∧
    ∀ threshold, count_prevotes s round < 2 * threshold →
      tx ∈ get_valid_txs s round threshold →
      tx ∉ get_invalid_txs s round threshold.
Proof.
  intros Hs round tx. pose proof (reachable_voices_bounded _ _ Hs round tx) as Hsum.
  split; [done |]. intros threshold Hth. unfold get_valid_txs, get_invalid_txs.
  fold (row_of (tx_blacklist s) round). fold (row_of (tx_whitelist s) round).
  rewrite !elem_of_over_threshold. intros (c1 & Hc1 & ?) (c2 & Hc2 & ?).
  unfold tally in Hsum. rewrite Hc1, Hc2 in Hsum. simpl in Hsum. lia.
Qed.

(** X8.  In every reachable journal each hash that [get_valid_txs] lists is
    the hash of a transaction in the body of a block that [get_candidate]
    still returns: the whitelist is only ever fed from stored proposals. *)
Theorem valid_txs_come_from_candidates s :
  reachable get_tx_hash s →
  ∀ (round threshold : Z) (tx : bytes),
    tx ∈ get_valid_txs s round threshold →
    ∃ h b, get_candidate s (Some h) = Some b ∧
           tx ∈ map get_tx_hash (transactions (body b)).
Proof.
  intros Hs round threshold tx. unfold get_valid_txs.
  fold (row_of (tx_whitelist s) round). rewrite elem_of_over_threshold.
  intros (c & Hc & _). apply (reachable_whitelist_grounded _ _ Hs round tx). eauto.
Qed.

End reachable_facts.

(** ** Quorum arithmetic *)

Lemma filter_two_targets {A B} `{EqDecision B} (f : A → B) (b1 b2 : B) (l : list A) :
  b1 ≠ b2 →
  (length (filter (λ x, f x = b1) l) + length (filter (λ x, f x = b2) l)
   ≤ length l)%nat.
Proof.
  intros Hne. induction l as [|x l IH]; [simpl; lia |].
  rewrite !filter_cons.
  destruct (decide (f x = b1)) as [H1|H1]; destruct (decide (f x = b2)) as [H2|H2];
    simpl; try lia.
  congruence.
Qed.

(** X9.  On any journal the votes for one target are part of the votes of
    the round, and the votes for two different targets are disjoint parts:
    if two different targets both have a prevote (or precommit) quorum at a
    round, the round holds at least twice the threshold in votes. *)
Theorem quorums_share_the_round s (round : Z) (h1 h2 : option bytes) (threshold : Z) :
  h1 ≠ h2 →
  count_prevotes_for s round h1 + count_prevotes_for s round h2
    ≤ count_prevotes s round ∧
  count_precommits_for s round h1 + count_precommits_for s round h2
    ≤ count_precommits s round ∧
  (has_prevote_quorum s round h1 threshold = true →
   has_prevote_quorum s round h2 threshold = true →
   2 * threshold ≤ count_prevotes s round) ∧
  (has_precommit_quorum s round h1 threshold = true →
   has_precommit_quorum s round h2 threshold = true →
   2 * threshold ≤ count_precommits s round).
Proof.
  intros Hne.
  assert (count_prevotes_for s round h1 + count_prevotes_for s round h2
          ≤ count_prevotes s round) as Hv.
  { unfold count_prevotes_for, count_prevotes.
    pose proof (filter_two_targets vote_target h1 h2
                  (default [] (prevotes s !! round)) Hne). lia. }
  assert (count_precommits_for s round h1 + count_precommits_for s round h2
          ≤ count_precommits s round) as Hc.
  { unfold count_precommits_for, count_precommits.
    pose proof (filter_two_targets commit_target h1 h2
                  (default [] (precommits s !! round)) Hne). lia. }
  split_and!; [done | done | |].
  - unfold has_prevote_quorum. rewrite !Z.geb_le. lia.
  - unfold has_precommit_quorum. rewrite !Z.geb_le. lia.
Qed.

(** X10.  A threshold of 0 or less makes both quorum tests succeed on every
    journal, for every round and target; right after [reset] that is the
    only way they succeed. *)
Theorem quorum_threshold_edge s (round : Z) (h : option bytes) (threshold : Z) :
  (threshold ≤ 0 →
   has_prevote_quorum s round h threshold = true ∧
   has_precommit_quorum s round h threshold = true) ∧
  (has_prevote_quorum (reset s) round h threshold = true ↔ threshold ≤ 0) ∧
  (has_precommit_quorum (reset s) round h threshold = true ↔ threshold ≤ 0).
Proof.
  unfold has_prevote_quorum, has_precommit_quorum. rewrite !Z.geb_le.
  split_and!.
  - unfold count_prevotes_for, count_precommits_for. lia.
  - done.
  - done.
Qed.

(** ** What a call of [add_message] keeps *)

Lemma insert_snoc_ne {A} (m : gmap Z (list A)) (round : Z) (x : A) :
  <[round := default [] (m !! round) ++ [x]]> m ≠ m.
Proof.
  intros Heq. apply (f_equal (λ m', length (default [] (m' !! round)))) in Heq.
  rewrite lookup_insert_eq in Heq. simpl in Heq. rewrite length_app in Heq.
  simpl in Heq. lia.
Qed.

Lemma prefix_insert_snoc {A} (m : gmap Z (list A)) (round round' : Z) (x : A) :
  default [] (m !! round')
  `prefix_of` default [] (<[round := default [] (m !! round) ++ [x]]> m !! round').
Proof.
  destruct (decide (round' = round)) as [->|Hne].
  - rewrite lookup_insert_eq. simpl. by exists [x].
  - by rewrite lookup_insert_ne.
Qed.

Section add_message_keeps.
Variable get_tx_hash : Transaction → bytes.

(** What a returning call of [add_message] did to the three maps of votes
    and proposals, on any journal whatever. *)
Lemma add_message_inv s m b s' :
  add_message get_tx_hash s m = Some (b, s') →
  if b then
    (∃ round v, prevotes s' = <[round := default [] (prevotes s !! round) ++ [v]]> (prevotes s)
                ∧ precommits s' = precommits s ∧ proposals s' = proposals s) ∨
    (∃ round c, precommits s' = <[round := default [] (precommits s !! round) ++ [c]]> (precommits s)
                ∧ prevotes s' = prevotes s ∧ proposals s' = proposals s) ∨
    (∃ h blk, proposals s !! h = None ∧ proposals s' = <[h := blk]> (proposals s)
              ∧ prevotes s' = prevotes s ∧ precommits s' = precommits s)
  else s' = s.
Proof.
  destruct m as [p|pv|pc]; simpl.
  - rewrite add_proposal_spec. simpl.
    destruct (proposals s !! _) eqn:Hp; intros [= <- <-]; [done |].
    right. right. eauto 10.
  - intros Hadd. apply add_prevote_inv in Hadd as (Hc & Hp & Hb).
    destruct b; [| by destruct Hb]. destruct Hb as [_ Hv]. left. eauto 10.
  - rewrite add_precommit_spec. simpl.
    destruct (py_in Commit_eq _ _); intros [= <- <-]; [done |].
    right. left. eauto 10.
Qed.

(** X11.  [add_message] returns [false] exactly when it leaves the journal
    as it was: a call that returns [true] has changed the journal. *)
Theorem add_message_flag_is_change s m b s' :
  add_message get_tx_hash s m = Some (b, s') →
  (b = false ↔ s' = s).
Proof.
  intros Hadd. apply add_message_inv in Hadd. destruct b; [| done].
  split; [done |]. intros ->. exfalso.
  destruct Hadd as [(round & v & Hv & _) | [(round & c & Hc & _) | (h & blk & Hh & Hp & _)]].
  - symmetry in Hv. by apply insert_snoc_ne in Hv.
  - symmetry in Hc. by apply insert_snoc_ne in Hc.
  - apply (f_equal (λ m', m' !! h)) in Hp. rewrite lookup_insert_eq in Hp. congruence.
Qed.

(** X12.  Nothing recorded is ever dropped, reordered or overwritten by
    [add_message]: the prevotes and the precommits of every round before
    the call are a prefix of those after it, targets included, and every
    candidate that [get_candidate] returned is still returned, also after a
    competing proposal under the same hash. *)
Theorem add_message_keeps_records s m b s' :
  add_message get_tx_hash s m = Some (b, s') →
  (∀ round, default [] (prevotes s !! round)
            `prefix_of` default [] (prevotes s' !! round)) ∧
  (∀ round, default [] (precommits s !! round)
            `prefix_of` default [] (precommits s' !! round)) ∧
  (∀ h blk, get_candidate s h = Some blk → get_candidate s' h = Some blk).
Proof.
  intros Hadd. apply add_message_inv in Hadd. destruct b; [| by subst].
  destruct Hadd as [(round & v & -> & -> & Hp) | [(round & c & -> & -> & Hp)
                   | (h & blk & Hh & Hp & -> & ->)]].
  - split_and!; [| done |].
    + intros round'. apply prefix_insert_snoc.
    + unfold get_candidate. by rewrite Hp.
  - split_and!; [done | |].
    + intros round'. apply prefix_insert_snoc.
    + unfold get_candidate. by rewrite Hp.
  - split_and!; [done | done |].
    unfold get_candidate. intros [k|] blk'; simpl; [| done].
    rewrite Hp. intros Hk. rewrite lookup_insert_ne; [done |]. intros <-. congruence.
Qed.

(** Counters only grow along a record. *)
Lemma recorded_rows_grow s b s' round tx c :
  recorded get_tx_hash s b s' →
  (row_of (tx_whitelist s) round !! tx = Some c →
   ∃ c', row_of (tx_whitelist s') round !! tx = Some c' ∧ c ≤ c') ∧
  (row_of (tx_blacklist s) round !! tx = Some c →
   ∃ c', row_of (tx_blacklist s') round !! tx = Some c' ∧ c ≤ c').
Proof.
  assert (∀ txs row, NoDup txs → row !! tx = Some c →
            ∃ c', foldl bump row txs !! tx = Some c' ∧ c ≤ c') as Hgrow.
  { intros txs row Hnd Hrow. rewrite lookup_foldl_bump by done. unfold tally.
    rewrite Hrow. simpl. case_decide; eexists; (split; [done | lia]). }
  intros Hrec. destruct Hrec as [|pv _|pc _|p _]; try by (split; eauto with lia).
  unfold record_prevote. simpl.
  destruct (decide (round = pv_round pv)) as [->|Hne].
  - rewrite !row_of_insert_eq. split.
    + destruct (get_candidate s (pv_hash pv)); [| by eauto with lia].
      apply Hgrow, NoDup_elements.
    + apply Hgrow, NoDup_elements.
  - rewrite !row_of_insert_ne by done. split; eauto with lia.
Qed.

(** X13.  On a journal whose per-round tables are aligned no call of
    [add_message] lowers or removes a tally counter, so a hash listed by
    [get_invalid_txs] or [get_valid_txs] at some threshold is still listed
    at that threshold after the call. *)
Theorem add_message_keeps_tallies s m b s' :
  rounds_aligned s →
  add_message get_tx_hash s m = Some (b, s') →
  ∀ (round threshold : Z) (tx : bytes),
    (tx ∈ get_invalid_txs s round threshold → tx ∈ get_invalid_txs s' round threshold) ∧
    (tx ∈ get_valid_txs s round threshold → tx ∈ get_valid_txs s' round threshold).
Proof.
  intros Hal Hadd round threshold tx.
  apply add_message_recorded in Hadd; [| done].
  unfold get_invalid_txs, get_valid_txs.
  fold (row_of (tx_blacklist s) round). fold (row_of (tx_whitelist s) round).
  fold (row_of (tx_blacklist s') round). fold (row_of (tx_whitelist s') round).
  rewrite !elem_of_over_threshold.
  split; intros (c & Hc & Hth);
    apply (recorded_rows_grow s b s' round tx c Hadd) in Hc as (c' & Hc' & Hle);
    exists c'; (split; [done | lia]).
Qed.

End add_message_keeps.

(** ** Prevotes on a journal whose tables are not aligned *)

Lemma elements_inhabited (X : gset bytes) (x : bytes) :
  x ∈ X → ∃ y l, elements X = y :: l.
Proof.
  intros Hx. destruct (elements X) as [|y l] eqn:HX; [| eauto].
  apply elements_empty_inv in HX. set_solver.
Qed.

Lemma for_each_whitelist_absent round invalid_txs tx txs table :
  table !! round = None →
  for_each (whitelist_body round invalid_txs) (tx :: txs) table = None.
Proof.
  intros Hrow. simpl. unfold whitelist_body, tally_init. by rewrite Hrow.
Qed.

Section misaligned.
Variable get_tx_hash : Transaction → bytes.

(** X14.  The subscripts [tx_blacklist[round]] and [tx_whitelist[round]]
    are only guarded by the test on [prevotes].  On a journal where the
    round has prevotes but no blacklist row, a prevote of a new voter that
    lists an invalid transaction raises; where the round has no whitelist
    row, a prevote of a new voter raises as soon as its candidate has a
    transaction the prevote does not list as invalid. *)
Theorem add_prevote_raises_without_row s pv members :
  prevotes s !! pv_round pv = Some members →
  pv_pubkey pv ∉ vote_pubkey <$> members →
  (tx_blacklist s !! pv_round pv = None → pv_invalid_txs pv ≠ [] →
   add_prevote get_tx_hash s pv = None) ∧
  (tx_whitelist s !! pv_round pv = None →
   ∀ b tx, get_candidate s (pv_hash pv) = Some b →
           tx ∈ map get_tx_hash (transactions (body b)) →
           tx ∉ pv_invalid_txs pv →
           add_prevote get_tx_hash s pv = None).
Proof.
  intros Hm Hk.
  assert (py_in Vote_eq (mkVote (pv_pubkey pv) (pv_hash pv)) members = false) as Hin.
  { apply not_true_is_false. intros Hin.
    by apply (py_in_Vote (mkVote (pv_pubkey pv) (pv_hash pv))) in Hin. }
  split.
  - intros Hrow Hbad. unfold add_prevote.
    rewrite bool_decide_eq_true_2 by eauto. rewrite Hm. simpl. rewrite Hin.
    destruct (pv_invalid_txs pv) as [|tx0 txs0] eqn:Htxs; [done |].
    destruct (elements_inhabited (list_to_set (tx0 :: txs0)) tx0) as (y & l & ->);
      [set_solver |].
    by rewrite for_each_blacklist_absent.
  - intros Hrow b tx Hb Htx Hgood. unfold add_prevote.
    rewrite bool_decide_eq_true_2 by eauto. rewrite Hm. simpl. rewrite Hin.
    destruct (for_each (blacklist_body _) _ _) as [bl|]; simpl; [| done].
    rewrite Hb.
    destruct (elements_inhabited
                (list_to_set (map get_tx_hash (transactions (body b)))
                 ∖ list_to_set (pv_invalid_txs pv)) tx) as (y & l & ->).
    { apply elem_of_difference. by rewrite !elem_of_list_to_set. }
    by rewrite for_each_whitelist_absent.
Qed.

End misaligned.

(** ** Two prevotes in either order *)

Lemma foldl_bump_comm (xs ys : list bytes) (row : gmap bytes Z) :
  NoDup xs → NoDup ys →
  foldl bump (foldl bump row xs) ys = foldl bump (foldl bump row ys) xs.
Proof.
  intros Hxs Hys. apply map_eq. intros t.
  rewrite !lookup_foldl_bump, !tally_foldl_bump by done.
  destruct (decide (t ∈ xs)), (decide (t ∈ ys)); first [done | f_equal; lia].
Qed.

Lemma voices_comm txs1 txs2 row :
  (∀ xs, txs1 = Some xs → NoDup xs) → (∀ xs, txs2 = Some xs → NoDup xs) →
  voices txs2 (voices txs1 row) = voices txs1 (voices txs2 row).
Proof.
  intros H1 H2. destruct txs1 as [xs|], txs2 as [ys|]; simpl; try done.
  apply foldl_bump_comm; eauto.
Qed.

Lemma table_update_comm {A} (table : gmap Z A) (d : A) (r1 r2 : Z) (f1 f2 : A → A) :
  (∀ a, f2 (f1 a) = f1 (f2 a)) →
  let get t r := default d (t !! r) in
  <[r2 := f2 (get (<[r1 := f1 (get table r1)]> table) r2)]>
    (<[r1 := f1 (get table r1)]> table)
  = <[r1 := f1 (get (<[r2 := f2 (get table r2)]> table) r1)]>
      (<[r2 := f2 (get table r2)]> table).
Proof.
  intros Hcomm. simpl. destruct (decide (r1 = r2)) as [->|Hne].
  - rewrite !lookup_insert_eq. simpl. rewrite !insert_insert_eq. by rewrite Hcomm.
  - rewrite !lookup_insert_ne by done. by apply insert_insert_ne.
Qed.

Lemma py_in_Vote_snoc v w members :
  vote_pubkey v ≠ vote_pubkey w →
  py_in Vote_eq v (members ++ [w]) = py_in Vote_eq v members.
Proof.
  intros Hne. unfold py_in. rewrite existsb_app. simpl. unfold Vote_eq at 2.
  rewrite bool_decide_eq_false_2 by done. by rewrite !orb_false_r.
Qed.

Section two_prevotes.
Variable get_tx_hash : Transaction → bytes.

Lemma record_prevote_voices s pv :
  record_prevote get_tx_hash s pv
  = mkLog
      (<[pv_round pv := default [] (prevotes s !! pv_round pv)
                        ++ [mkVote (pv_pubkey pv) (pv_hash pv)]]> (prevotes s))
      (precommits s) (proposals s)
      (<[pv_round pv := voices (good_txs_of get_tx_hash s pv)
                               (default ∅ (tx_whitelist s !! pv_round pv))]>
         (tx_whitelist s))
      (<[pv_round pv := voices (bad_txs_of pv)
                               (default ∅ (tx_blacklist s !! pv_round pv))]>
         (tx_blacklist s)).
Proof.
  unfold record_prevote, good_txs_of, bad_txs_of, row_of. simpl.
  by destruct (get_candidate s (pv_hash pv)).
Qed.

Lemma good_txs_of_NoDup s pv xs : good_txs_of get_tx_hash s pv = Some xs → NoDup xs.
Proof.
  unfold good_txs_of. destruct (get_candidate s (pv_hash pv)); simpl; [| done].
  intros [= <-]. apply NoDup_elements.
Qed.

Lemma bad_txs_of_NoDup pv xs : bad_txs_of pv = Some xs → NoDup xs.
Proof. intros [= <-]. apply NoDup_elements. Qed.

Lemma good_txs_of_record s pv pv' :
  good_txs_of get_tx_hash (record_prevote get_tx_hash s pv') pv = good_txs_of get_tx_hash s pv.
Proof. done. Qed.

Lemma rounds_aligned_after s pv : rounds_aligned s → rounds_aligned (after_prevote get_tx_hash s pv).
Proof.
  intros [Hw Hb]. unfold after_prevote. destruct (py_in Vote_eq _ _); [done |].
  unfold rounds_aligned, record_prevote. simpl. by rewrite !dom_insert_L, Hw, Hb.
Qed.

Lemma add_prevote_after s pv :
  rounds_aligned s →
  snd <$> add_prevote get_tx_hash s pv = Some (after_prevote get_tx_hash s pv).
Proof.
  intros Hal. rewrite add_prevote_aligned by done. unfold after_prevote.
  by destruct (py_in Vote_eq _ _).
Qed.

Lemma run_two_prevotes s pv1 pv2 :
  rounds_aligned s →
  run_ops get_tx_hash s [OpAddPrevote pv1; OpAddPrevote pv2]
  = Some (after_prevote get_tx_hash (after_prevote get_tx_hash s pv1) pv2).
Proof.
  intros Hal. unfold run_ops. simpl.
  rewrite add_prevote_after by done. simpl.
  rewrite add_prevote_after by (by apply rounds_aligned_after). reflexivity.
Qed.

Lemma py_in_after_other s pv pv' :
  pv_round pv ≠ pv_round pv' ∨ pv_pubkey pv ≠ pv_pubkey pv' →
  py_in Vote_eq (mkVote (pv_pubkey pv) (pv_hash pv))
        (default [] (prevotes (after_prevote get_tx_hash s pv') !! pv_round pv))
  = py_in Vote_eq (mkVote (pv_pubkey pv) (pv_hash pv))
          (default [] (prevotes s !! pv_round pv)).
Proof.
  intros Hne. unfold after_prevote.
  destruct (py_in Vote_eq (mkVote (pv_pubkey pv') (pv_hash pv')) _); [done |].
  unfold record_prevote. simpl.
  destruct (decide (pv_round pv = pv_round pv')) as [Hr|Hr].
  - destruct Hne as [? | Hk]; [done |].
    rewrite Hr, lookup_insert_eq. simpl. by apply py_in_Vote_snoc.
  - by rewrite lookup_insert_ne.
Qed.

Lemma after_prevote_twice s pv pv' :
  pv_round pv ≠ pv_round pv' ∨ pv_pubkey pv ≠ pv_pubkey pv' →
  after_prevote get_tx_hash (after_prevote get_tx_hash s pv') pv
  = if py_in Vote_eq (mkVote (pv_pubkey pv) (pv_hash pv))
             (default [] (prevotes s !! pv_round pv))
    then after_prevote get_tx_hash s pv'
    else record_prevote get_tx_hash (after_prevote get_tx_hash s pv') pv.
Proof.
  intros Hne. unfold after_prevote at 1. by rewrite py_in_after_other.
Qed.

(** X15.  On an aligned journal two prevotes that are not from the same
    voter at the same round can be recorded in either order: both orders
    return, and give the same whitelist and blacklist tables, the same
    proposals and precommits, and the same prevote counts for every round
    and target. *)
Theorem prevotes_commute s pv1 pv2 :
  rounds_aligned s →
  pv_round pv1 ≠ pv_round pv2 ∨ pv_pubkey pv1 ≠ pv_pubkey pv2 →
  ∃ s12 s21,
    run_ops get_tx_hash s [OpAddPrevote pv1; OpAddPrevote pv2] = Some s12 ∧
    run_ops get_tx_hash s [OpAddPrevote pv2; OpAddPrevote pv1] = Some s21 ∧
    tx_whitelist s12 = tx_whitelist s21 ∧
    tx_blacklist s12 = tx_blacklist s21 ∧
    proposals s12 = proposals s21 ∧
    precommits s12 = precommits s21 ∧
    ∀ (round : Z) (h : option bytes),
      count_prevotes s12 round = count_prevotes s21 round ∧
      count_prevotes_for s12 round h = count_prevotes_for s21 round h.
Proof.
  intros Hal Hne.
  assert (pv_round pv2 ≠ pv_round pv1 ∨ pv_pubkey pv2 ≠ pv_pubkey pv1) as Hne'
    by (destruct Hne; [left | right]; congruence).
  eexists _, _. split; [by apply run_two_prevotes |].
  split; [by apply run_two_prevotes |].
  rewrite (after_prevote_twice s pv2 pv1 Hne'), (after_prevote_twice s pv1 pv2 Hne).
  unfold after_prevote.
  destruct (py_in Vote_eq (mkVote (pv_pubkey pv1) (pv_hash pv1)) _) eqn:Hin1;
    destruct (py_in Vote_eq (mkVote (pv_pubkey pv2) (pv_hash pv2)) _) eqn:Hin2;
    try done.
  rewrite (record_prevote_voices (record_prevote get_tx_hash s pv1) pv2).
  rewrite (record_prevote_voices (record_prevote get_tx_hash s pv2) pv1).
  rewrite !good_txs_of_record.
  rewrite (record_prevote_voices s pv1), (record_prevote_voices s pv2).
  cbn [tx_whitelist tx_blacklist proposals precommits prevotes].
  split_and!; try done.
  - apply (table_update_comm (tx_whitelist s) ∅). intros row.
    apply voices_comm; apply good_txs_of_NoDup.
  - apply (table_update_comm (tx_blacklist s) ∅). intros row.
    apply voices_comm; apply bad_txs_of_NoDup.
  - intros round h. unfold count_prevotes, count_prevotes_for.
    cbn [prevotes].
    rewrite !length_snoc_count, !filter_snoc_count.
    cbn [vote_target]. repeat case_decide; lia.
Qed.

End two_prevotes.

(** ** Storing and finding *)

(** X16.  After [add_proposal] the header hash of the proposal always has a
    candidate: the block stored before under that hash if there was one,
    the proposed block otherwise.  The candidates of all other hashes, and
    the empty answer for the nil target, are as before. *)
Theorem add_proposal_then_get_candidate s p :
  let h := hash (header (prop_block p)) in
  get_candidate (add_proposal s p).2 (Some h)
  = Some (default (prop_block p) (get_candidate s (Some h))) ∧
  (∀ k, k ≠ h →
     get_candidate (add_proposal s p).2 (Some k) = get_candidate s (Some k)) ∧
  get_candidate (add_proposal s p).2 None = None.
Proof.
  intros h. rewrite add_proposal_spec. fold h. unfold get_candidate. simpl.
  destruct (proposals s !! h) as [b0|] eqn:Hh; simpl.
  - by rewrite Hh.
  - rewrite lookup_insert_eq. split_and!; [done | | done].
    intros k Hk. by rewrite lookup_insert_ne.
Qed.

Section voter_on_record.
Variable get_tx_hash : Transaction → bytes.

(** X17.  After any call of [add_prevote] that returns, the voter is on
    record at the round of the message with exactly one vote; when the
    call returned [true] that vote is the last entry of the round and has
    the target of this message, and when it returned [false] the vote
    recorded earlier is the one on record.  This needs the public keys of
    the round to be distinct beforehand, as they are in every reachable
    journal. *)
Theorem add_prevote_then_on_record s pv b s' :
  votes_unique s →
  add_prevote get_tx_hash s pv = Some (b, s') →
  votes_of (pv_pubkey pv) (default [] (prevotes s' !! pv_round pv)) = 1%nat ∧
  (b = true →
   default [] (prevotes s' !! pv_round pv)
   = default [] (prevotes s !! pv_round pv) ++ [mkVote (pv_pubkey pv) (pv_hash pv)]) ∧
  (b = false → prevotes s' = prevotes s).
Proof.
  intros Hu Hadd. apply add_prevote_inv in Hadd as (_ & _ & Hb).
  assert (NoDup (vote_pubkey <$> default [] (prevotes s !! pv_round pv))) as Hnd.
  { destruct (prevotes s !! pv_round pv) as [ms|] eqn:Hm; simpl.
    - by eapply Hu.
    - apply NoDup_nil_2. }
  unfold votes_of. destruct b.
  - destruct Hb as [Hin ->]. rewrite lookup_insert_eq. simpl.
    split_and!; [| done | done].
    rewrite filter_app, length_app, filter_cons, filter_nil. simpl.
    rewrite decide_True by done. simpl.
    enough (filter (λ v, vote_pubkey v = pv_pubkey pv)
                   (default [] (prevotes s !! pv_round pv)) = []) as -> by done.
    destruct (filter _ _) as [|v l] eqn:Hf; [done |]. exfalso.
    assert (v ∈ filter (λ v, vote_pubkey v = pv_pubkey pv)
                       (default [] (prevotes s !! pv_round pv))) as Hv
      by (rewrite Hf; left).
    apply list_elem_of_filter in Hv as [Hk Hv].
    assert (py_in Vote_eq (mkVote (pv_pubkey pv) (pv_hash pv))
                  (default [] (prevotes s !! pv_round pv)) = true); [| congruence].
    apply py_in_Vote. simpl. rewrite <- Hk. by apply list_elem_of_fmap_2.
  - destruct Hb as [-> Hin]. split_and!; [| done | done].
    apply (py_in_Vote (mkVote (pv_pubkey pv) (pv_hash pv))) in Hin. simpl in Hin.
    pose proof (NoDup_fmap_filter_length vote_pubkey (pv_pubkey pv) _ Hnd) as Hle.
    apply list_elem_of_fmap in Hin as (v & Hk & Hv).
    assert (v ∈ filter (λ v, vote_pubkey v = pv_pubkey pv)
                       (default [] (prevotes s !! pv_round pv))) as Hv'
      by (by apply list_elem_of_filter).
    destruct (filter _ _) as [|v0 l]; [by apply not_elem_of_nil in Hv' |].
    simpl in *. lia.
Qed.

End voter_on_record.

(** ** The further properties at the sample journals *)

Lemma sample_add_pcB :
  add_precommit Sample.log Sample2.pcB = Some (true, Sample2.log_pcB).
Proof. vm_compute. reflexivity. Qed.

Lemma add_precommit_counts_witness :
  add_precommit Sample.log Sample2.pcB = Some (true, Sample2.log_pcB) ∧
  count_precommits Sample2.log_pcB 0 = count_precommits Sample.log 0 + 1 ∧
  count_precommits_for Sample2.log_pcB 0 None
  = count_precommits_for Sample.log 0 None + 1.
Proof.
  split; [apply sample_add_pcB |].
  exact (add_precommit_counts Sample.log Sample2.pcB Sample2.log_pcB
           sample_add_pcB 0 None).
Defined.

Lemma add_prevote_counts_witness :
  add_prevote Sample.tx_hash Sample.log Sample.pvC = Some (true, Sample.log') ∧
  count_prevotes Sample.log' 0 = count_prevotes Sample.log 0 + 1 ∧
  count_prevotes_for Sample.log' 0 None = count_prevotes_for Sample.log 0 None + 0.
Proof.
  split; [apply sample_add_pvC |].
  destruct (add_prevote_counts Sample.tx_hash Sample.log Sample.pvC Sample.log'
              sample_add_pvC 0 None) as (H1 & H2 & _).
  split; [exact H1 | exact H2].
Defined.

Lemma rounds_opened_together_witness :
  reachable Sample.tx_hash Sample.log ∧
  (is_Some (tx_whitelist Sample.log !! 0) ↔ 0 < count_prevotes Sample.log 0) ∧
  (is_Some (tx_blacklist Sample.log !! 7) ↔ 0 < count_prevotes Sample.log 7).
Proof.
  split; [apply sample_log_reachable |].
  split.
  - apply (rounds_opened_together Sample.tx_hash Sample.log sample_log_reachable 0).
  - apply (rounds_opened_together Sample.tx_hash Sample.log sample_log_reachable 7).
Defined.

Lemma counters_at_least_one_witness :
  reachable Sample.tx_hash Sample.log ∧
  ∀ c, row_of (tx_blacklist Sample.log) 0 !! [x0b] = Some c → 1 ≤ c.
Proof.
  split; [apply sample_log_reachable |].
  apply (counters_at_least_one Sample.tx_hash Sample.log sample_log_reachable 0 [x0b]).
Defined.

Lemma valid_and_invalid_exclusive_witness :
  reachable Sample.tx_hash Sample.log ∧
  tally (row_of (tx_whitelist Sample.log) 0) [x0b]
  + tally (row_of (tx_blacklist Sample.log) 0) [x0b] ≤ count_prevotes Sample.log 0.
Proof.
  split; [apply sample_log_reachable |].
  apply (valid_and_invalid_exclusive Sample.tx_hash Sample.log
           sample_log_reachable 0 [x0b]).
Defined.

Lemma valid_txs_come_from_candidates_witness :
  reachable Sample.tx_hash Sample.log ∧
  [x01] ∈ get_valid_txs Sample.log 0 1 ∧
  ∃ h b, get_candidate Sample.log (Some h) = Some b ∧
         [x01] ∈ map Sample.tx_hash (transactions (body b)).
Proof.
  assert ([x01] ∈ get_valid_txs Sample.log 0 1) as Hin by by_evaluation.
  split_and!; [apply sample_log_reachable | exact Hin |].
  exact (valid_txs_come_from_candidates Sample.tx_hash Sample.log
           sample_log_reachable 0 1 [x01] Hin).
Defined.

Lemma quorums_share_the_round_witness :
  Some Sample.hAA ≠ None ∧
  count_prevotes_for Sample.log' 0 (Some Sample.hAA)
  + count_prevotes_for Sample.log' 0 None ≤ count_prevotes Sample.log' 0.
Proof.
  assert (Some Sample.hAA ≠ @None bytes) as Hne by done.
  split; [exact Hne |].
  apply (quorums_share_the_round Sample.log' 0 (Some Sample.hAA) None 2 Hne).
Defined.

Lemma quorum_threshold_edge_witness :
  0 ≤ 0 ∧ has_prevote_quorum Sample.log 5 (Some Sample.hBB) 0 = true.
Proof.
  assert (0 ≤ 0) as Hle by lia.
  split; [exact Hle |].
  apply (proj1 (quorum_threshold_edge Sample.log 5 (Some Sample.hBB) 0) Hle).
Defined.

Lemma sample_add_pvA' :
  add_message Sample.tx_hash Sample.log (Prevote Sample.pvA') = Some (false, Sample.log).
Proof. vm_compute. reflexivity. Qed.

Lemma add_message_flag_is_change_witness :
  add_message Sample.tx_hash Sample.log (Prevote Sample.pvA') = Some (false, Sample.log) ∧
  (false = false ↔ Sample.log = Sample.log).
Proof.
  split; [apply sample_add_pvA' |].
  apply (add_message_flag_is_change Sample.tx_hash Sample.log (Prevote Sample.pvA')
           false Sample.log sample_add_pvA').
Defined.

Lemma add_message_keeps_records_witness :
  add_message Sample.tx_hash Sample.log (Prevote Sample.pvC) = Some (true, Sample.log') ∧
  default [] (prevotes Sample.log !! 0) `prefix_of` default [] (prevotes Sample.log' !! 0).
Proof.
  split; [apply sample_add_pvC |].
  apply (add_message_keeps_records Sample.tx_hash Sample.log (Prevote Sample.pvC)
           true Sample.log' sample_add_pvC).
Defined.

Lemma add_message_keeps_tallies_witness :
  rounds_aligned Sample.log ∧
  add_message Sample.tx_hash Sample.log (Prevote Sample.pvC) = Some (true, Sample.log') ∧
  ([x0b] ∈ get_invalid_txs Sample.log 0 2 → [x0b] ∈ get_invalid_txs Sample.log' 0 2).
Proof.
  split; [apply sample_log_aligned |]. split; [apply sample_add_pvC |].
  apply (add_message_keeps_tallies Sample.tx_hash Sample.log (Prevote Sample.pvC)
           true Sample.log' sample_log_aligned sample_add_pvC 0 2 [x0b]).
Defined.

Lemma add_prevote_raises_without_row_witness :
  prevotes Sample2.bare !! 0 = Some [mkVote Sample.pkA (Some Sample.hAA)] ∧
  (Sample.pkC ∉ vote_pubkey <$> [mkVote Sample.pkA (Some Sample.hAA)]) ∧
  tx_blacklist Sample2.bare !! 0 = None ∧
  pv_invalid_txs Sample.pvC ≠ [] ∧
  add_prevote Sample.tx_hash Sample2.bare Sample.pvC = None.
Proof.
  assert (prevotes Sample2.bare !! 0 = Some [mkVote Sample.pkA (Some Sample.hAA)])
    as Hm by (vm_compute; reflexivity).
  assert (Sample.pkC ∉ vote_pubkey <$> [mkVote Sample.pkA (Some Sample.hAA)])
    as Hk by by_evaluation.
  assert (tx_blacklist Sample2.bare !! 0 = None) as Hrow by (vm_compute; reflexivity).
  assert (pv_invalid_txs Sample.pvC ≠ []) as Hbad by done.
  split; [exact Hm |]. split; [exact Hk |]. split; [exact Hrow |].
  split; [exact Hbad |].
  exact (proj1 (add_prevote_raises_without_row Sample.tx_hash Sample2.bare Sample.pvC
                  _ Hm Hk) Hrow Hbad).
Defined.

Lemma prevotes_commute_witness :
  rounds_aligned Sample.log ∧
  (pv_round Sample.pvC ≠ pv_round Sample2.pvD ∨
   pv_pubkey Sample.pvC ≠ pv_pubkey Sample2.pvD) ∧
  ∃ s12 s21,
    run_ops Sample.tx_hash Sample.log [OpAddPrevote Sample.pvC; OpAddPrevote Sample2.pvD]
    = Some s12 ∧
    run_ops Sample.tx_hash Sample.log [OpAddPrevote Sample2.pvD; OpAddPrevote Sample.pvC]
    = Some s21 ∧
    tx_whitelist s12 = tx_whitelist s21 ∧
    tx_blacklist s12 = tx_blacklist s21 ∧
    proposals s12 = proposals s21 ∧
    precommits s12 = precommits s21 ∧
    ∀ (round : Z) (h : option bytes),
      count_prevotes s12 round = count_prevotes s21 round ∧
      count_prevotes_for s12 round h = count_prevotes_for s21 round h.
Proof.
  assert (pv_round Sample.pvC ≠ pv_round Sample2.pvD ∨
          pv_pubkey Sample.pvC ≠ pv_pubkey Sample2.pvD) as Hne by (right; done).
  split; [apply sample_log_aligned |]. split; [exact Hne |].
  exact (prevotes_commute Sample.tx_hash Sample.log Sample.pvC Sample2.pvD
           sample_log_aligned Hne).
Defined.

Lemma add_prevote_then_on_record_witness :
  votes_unique Sample.log ∧
  add_prevote Sample.tx_hash Sample.log Sample.pvC = Some (true, Sample.log') ∧
  votes_of Sample.pkC (default [] (prevotes Sample.log' !! 0)) = 1%nat.
Proof.
  pose proof (inv_votes _ (reachable_inv _ _ sample_log_reachable)) as Hu.
  split; [exact Hu |]. split; [apply sample_add_pvC |].
  apply (add_prevote_then_on_record Sample.tx_hash Sample.log Sample.pvC true
           Sample.log' Hu sample_add_pvC).
Defined.
